(** * Romana agent helpers and route publisher: a shallow embedding

    The definitions below follow [agent/helpers.go] (package [agent]) and the
    receive loop of [cmd/romana_route_publisher/main.go].  Go strings and byte
    slices are lists of [ascii]; a Go [error] result is the [Err] case of
    [result]; the file system behind [h.OS] and the shell behind
    [h.Executor] are explicit states threaded through a small state and
    error monad. *)

From Stdlib Require Import ZArith Lia Ascii String DecimalString DecimalPos.
From stdpp Require Import base option list gmap strings.

Local Open Scope Z_scope.
Local Open Scope list_scope.

(** ** Bytes and Go strings *)

Abbreviation bytes := (list ascii).

Definition NL : ascii := "010"%char.
Definition CR : ascii := "013"%char.

(** [[]byte("...")] of a literal. *)
Definition b (s : string) : bytes := list_ascii_of_string s.

(** [strings.HasPrefix] and [strings.Contains]. *)
Fixpoint HasPrefix (s prefix : bytes) : bool :=
  match prefix, s with
  | [], _ => true
  | p :: ps, c :: cs => Ascii.eqb c p && HasPrefix cs ps
  | _ :: _, [] => false
  end.

Fixpoint Contains (s substr : bytes) : bool :=
  HasPrefix s substr ||
  match s with
  | [] => false
  | _ :: s' => Contains s' substr
  end.

(** ** [bufio.Scanner] with the default split function [bufio.ScanLines] *)

(** The scanner buffers one token in at most [MaxScanTokenSize] bytes (the
    end-of-line marker included); a longer line stops the scan
    ([ErrTooLong]), and none of the loops of [helpers.go] looks at
    [scanner.Err()]. *)
Definition MaxScanTokenSize : Z := 64 * 1024.

(** [dropCR] of [bufio]: one trailing carriage return is dropped. *)
Definition dropCR (data : bytes) : bytes :=
  match last data with
  | Some c => if Ascii.eqb c CR then take (length data - 1)%nat data else data
  | None => data
  end.

(** The tokens [scanner.Scan()] / [scanner.Text()] yield, in order, on the
    bytes [data] still to be read, [cur] being the part of the current line
    that is already buffered.  A line is ended by a newline; the last line
    is returned without one when it is not empty. *)
Fixpoint scan_from (cur data : bytes) : list bytes :=
  match data with
  | [] =>
      match cur with
      | [] => []
      | _ :: _ =>
          if Z.of_nat (length cur) <? MaxScanTokenSize then [dropCR cur] else []
      end
  | c :: rest =>
      if Ascii.eqb c NL then
        if Z.of_nat (length cur) + 1 <=? MaxScanTokenSize
        then dropCR cur :: scan_from [] rest
        else []
      else scan_from (cur ++ [c]) rest
  end.

Definition Scanner_lines (content : bytes) : list bytes := scan_from [] content.

(** ** Errors *)

(** [NetIf] as the helpers read it: [netif.Name] and [netif.IP.IP].  The
    helpers use an address through [fmt]'s [%s] only, so an address is kept
    as the text [ip.String()] prints. *)
Record NetIf := mkNetIf { Name : string; IP : string }.

(** The error constructors of the agent package ([shelloutError],
    [noSuchRouteError], ...) are declared outside [helpers.go]; they are kept
    as the constructors of a tagged union, each carrying its arguments.
    [osError] is the error value of a call of the [OS] or [Executor] port. *)
Inductive error : Type :=
| osError (msg : string)
| shelloutError (err : error) (cmd : string) (args : list string)
| noSuchRouteError
| netIfRouteCreateError (err : error) (netif : NetIf)
| routeCreateError (err : error) (ip mask dest : string)
| failedToParseOtherHosts (romanaIp : string)
| ensureLineError (err : error).

Inductive result (A : Type) : Type :=
| Ok (a : A)
| Err (e : error).
Arguments Ok {A} a.
Arguments Err {A} e.

(** ** State and error monad *)

Definition M (S A : Type) : Type := S → result A * S.

#[global] Instance M_ret {S} : MRet (M S) := λ A a s, (Ok a, s).
#[global] Instance M_bind {S} : MBind (M S) := λ A B k m s,
  match m s with
  | (Ok a, s') => k a s'
  | (Err e, s') => (Err e, s')
  end.

(** [if err := f(); err != nil { return wrap(err) }]. *)
Definition wrapErr {S A} (wrap : error → error) (m : M S A) : M S A := λ s,
  match m s with
  | (Ok a, s') => (Ok a, s')
  | (Err e, s') => (Err (wrap e), s')
  end.

(** [err := f()] with the error inspected by the caller. *)
Definition attempt {S A} (m : M S A) : M S (result A) := λ s,
  match m s with
  | (r, s') => (Ok r, s')
  end.

Definition fail {S A} (e : error) : M S A := λ s, (Err e, s).

(** ** The file system behind [h.OS] *)

(** Modelled from the spec: the implementation of the [utilos.OS] port
    ([CreateIfMissing], [Open], [AppendFile]) is not part of the sources; the
    spec gives "create the file if missing (no-op if present)" and
    open/append/seek/truncate primitives.  The port is an in-memory file
    system, a finite map from paths to contents, whose operations fail on a
    missing path only. *)
Abbreviation FileSystem := (gmap string bytes).

Definition CreateIfMissing (path : string) : M FileSystem unit := λ fs,
  match fs !! path with
  | Some _ => (Ok (), fs)
  | None => (Ok (), <[path := []]> fs)
  end.

Definition Open (path : string) : M FileSystem bytes := λ fs,
  match fs !! path with
  | Some content => (Ok content, fs)
  | None => (Err (osError "no such file or directory"), fs)
  end.

(** [file.Write(t)] on a handle from [AppendFile]: the bytes go to the end. *)
Definition AppendFile_Write (path : string) (t : bytes) : M FileSystem unit := λ fs,
  match fs !! path with
  | Some content => (Ok (), <[path := content ++ t]> fs)
  | None => (Err (osError "no such file or directory"), fs)
  end.

(** [file.Seek(0, os.SEEK_SET)] then [io.Copy(file, buf)]: the buffer
    overwrites the file from offset 0 and extends it when it is longer. *)
Definition WriteAt0 (buf content : bytes) : bytes :=
  buf ++ drop (length buf) content.

(** [file.Truncate(n)]: cut at [n] bytes, or pad with zero bytes. *)
Definition Truncate (n : nat) (content : bytes) : bytes :=
  take n content ++ replicate (n - length content)%nat "000"%char.

(** [file.Seek(0, os.SEEK_SET)], [nw, err := io.Copy(file, buf)],
    [file.Truncate(nw)], [file.Sync()] on the handle of [path]. *)
Definition CopyAndTruncate (path : string) (buf : bytes) : M FileSystem unit := λ fs,
  match fs !! path with
  | Some content =>
      let nw := length buf in
      (Ok (), <[path := Truncate nw (WriteAt0 buf content)]> fs)
  | None => (Err (osError "no such file or directory"), fs)
  end.

(** ** Lease file lines *)

Inductive leaseOp := leaseAdd | leaseRemove.

(** [isLineInFile]: the scan loop returns true at the first line for which
    [strings.Contains(line, token)] holds. *)
Definition isLineInFile (path : string) (token : bytes) : M FileSystem bool :=
  content ← Open path;
  mret (existsb (λ line, Contains line token) (Scanner_lines content)).

(** [appendLineToFile]: writes [fmt.Sprintf("%s\n", token)]. *)
Definition appendLineToFile (path : string) (token : bytes) : M FileSystem unit :=
  AppendFile_Write path (token ++ [NL]).

(** The buffer [removeLineFromFile] fills: every scanned line that differs
    from the token, followed by a newline. *)
Fixpoint keepLines (token : bytes) (lines : list bytes) : bytes :=
  match lines with
  | [] => []
  | line :: rest =>
      if bool_decide (line ≠ token)
      then line ++ [NL] ++ keepLines token rest
      else keepLines token rest
  end.

Definition removeLineFromFile (path : string) (token : bytes) : M FileSystem unit :=
  content ← Open path;
  let buf := keepLines token (Scanner_lines content) in
  CopyAndTruncate path buf.

(** [ensureLine]; the mutex serialises the callers, and one call runs here
    from start to end. *)
Definition ensureLine (path : string) (token : bytes) (op : leaseOp)
  : M FileSystem unit :=
  wrapErr ensureLineError (CreateIfMissing path);;
  lineInFile ← wrapErr ensureLineError (isLineInFile path token);
  match op with
  | leaseAdd =>
      if negb lineInFile
      then wrapErr ensureLineError (appendLineToFile path token)
      else mret ()
  | leaseRemove =>
      if lineInFile
      then wrapErr ensureLineError (removeLineFromFile path token)
      else mret ()
  end.

(** ** The shell behind [h.Executor] *)

(** [Executor] is an interface of the agent: [Exec(cmd, args)] runs a command
    against the host (here a state [W]) and yields its output or an error. *)
Class Executor (W : Type) := Exec : string → list string → M W bytes.

(** The port keeps the commands it received, in order: the call count of the
    spec's properties is read from [calls]. *)
Record Shell (W : Type) := mkShell {
  world : W;
  calls : list (string * list string)
}.
Arguments mkShell {W} world calls.
Arguments world {W} s.
Arguments calls {W} s.

Definition exec `{Executor W} (cmd : string) (args : list string)
  : M (Shell W) bytes := λ sh,
  match Exec cmd args (world sh) with
  | (r, w') => (r, mkShell w' (calls sh ++ [(cmd, args)]))
  end.

(** ** Agent configuration *)

(** [common.Host] as the helpers read it. *)
Record Host := mkHost {
  Ip : string;
  RomanaIp : string;
  AgentPort : Z;
  HostName : string
}.

(** [net.IPNet] as [ensureInterHostRoutes] reads it: the helpers use an
    address through [fmt]'s [%s] only, so an address is kept as the text
    [ip.String()] prints; [Mask_Size] is the first result of [Mask.Size()]. *)
Record IPNet := mkIPNet { IPNet_IP : string; Mask_Size : Z }.

Record NetworkConfig := mkNetworkConfig {
  romanaGW : string;
  otherHosts : list Host;
  EndpointNetmaskSize : Z
}.

Record Agent := mkAgent {
  networkConfig : NetworkConfig;
  waitForIfaceTry : Z
}.

(** [fmt.Sprintf("%d", n)]. *)
Definition itoa (n : Z) : string := NilZero.string_of_int (Z.to_int n).

(** ** Route helpers *)

Section Routes.
Context {W : Type} `{!Executor W}.
(** [net.ParseCIDR], with [None] for its error result. *)
Variable ParseCIDR : string → option IPNet.
Variable h : Agent.

(** [isRouteExist]: [ip ro show A.B.C.D/M] comes up empty if the route
    does not exist. *)
Definition isRouteExist (ip netmask : string) : M (Shell W) unit :=
  let cmd := "/sbin/ip" in
  let target := ip +:+ "/" +:+ netmask in
  let args := ["ro"; "show"; target] in
  out ← wrapErr (λ err, shelloutError err cmd args) (exec cmd args);
  if (0 <? length out)%nat then mret () else fail noSuchRouteError.

(** [createRoute]. *)
Definition createRoute (ip netmask via dest : string) (extraArgs : list string)
  : M (Shell W) unit :=
  let cmd := "/sbin/ip" in
  let targetIP := ip +:+ "/" +:+ netmask in
  let args := ["ro"; "add"; targetIP; via; dest] ++ extraArgs in
  wrapErr (λ err, shelloutError err cmd args) (exec cmd args);;
  mret ().

(** [ensureRouteToEndpoint]. *)
Definition ensureRouteToEndpoint (netif : NetIf) : M (Shell W) unit :=
  let mask := itoa (EndpointNetmaskSize (networkConfig h)) in
  r ← attempt (isRouteExist (IP netif) mask);
  match r with
  | Err _ =>
      let via := "dev" in
      let dest := Name netif in
      wrapErr (λ err, netIfRouteCreateError err netif)
        (createRoute (IP netif) mask via dest
           ["src"; romanaGW (networkConfig h)])
  | Ok _ => mret ()
  end.

(** The body of the loop of [ensureInterHostRoutes] for one host; an
    error result stands for the [return] out of the loop. *)
Definition ensureInterHostRoute (host : Host) : M (Shell W) unit :=
  let via := "via" in
  match ParseCIDR (RomanaIp host) with
  | None => fail (failedToParseOtherHosts (RomanaIp host))
  | Some romanaCidr =>
      let romanaMask := itoa (Mask_Size romanaCidr) in
      let dest := Ip host in
      r ← attempt (isRouteExist (IPNet_IP romanaCidr) romanaMask);
      match r with
      | Err err =>
          r2 ← attempt (createRoute (IPNet_IP romanaCidr) romanaMask via dest []);
          match r2 with
          | Err err2 =>
              fail (routeCreateError err (IPNet_IP romanaCidr) romanaMask dest)
          | Ok _ => mret ()
          end
      | Ok _ => mret ()
      end
  end.

(** [for _, host := range hosts { ... }]. *)
Fixpoint rangeHosts (hosts : list Host) : M (Shell W) unit :=
  match hosts with
  | [] => mret ()
  | host :: rest => ensureInterHostRoute host;; rangeHosts rest
  end.

(** [ensureInterHostRoutes]. *)
Definition ensureInterHostRoutes : M (Shell W) unit :=
  rangeHosts (otherHosts (networkConfig h)).
End Routes.

(** ** Interface wait *)

(** Go's [int] on the 64-bit hosts the agent runs on; [i++] wraps. *)
Definition MaxInt : Z := 2 ^ 63 - 1.
Definition wrapInt (z : Z) : Z := (z + 2 ^ 63) mod 2 ^ 64 - 2 ^ 63.

(** What [waitForIface] does to its host: calls of [net.Interfaces()] and
    calls of [time.Sleep(10 * time.Second)]. *)
Record Sys := mkSys { polled : nat; slept : nat }.

Section WaitForIface.
(** [net.Interfaces()] at its k-th call (from 0): the names of the
    interfaces it lists, [None] when it returns an error (and a nil
    list). *)
Variable net_Interfaces : nat → option (list string).
Variable h : Agent.

(** The loop of [waitForIface] from counter [i]; the fuel bounds the
    number of turns, [None] is a loop that has not returned yet. *)
Fixpoint waitForIface_from (fuel : nat) (expectedIface : string) (i : Z)
    (sys : Sys) : option (bool * Sys) :=
  match fuel with
  | O => None
  | S fuel' =>
      if i <=? waitForIfaceTry h then
        let ifaceList := default [] (net_Interfaces (polled sys)) in
        let sys1 := mkSys (S (polled sys)) (slept sys) in
        if existsb (String.eqb expectedIface) ifaceList
        then Some (true, sys1)
        else waitForIface_from fuel' expectedIface (wrapInt (i + 1))
               (mkSys (polled sys1) (S (slept sys1)))
      else Some (false, sys)
  end.

Definition waitForIface (fuel : nat) (expectedIface : string)
  : Sys → option (bool * Sys) :=
  waitForIface_from fuel expectedIface 0.
End WaitForIface.

(** ** The receive loop of the route publisher *)

(** A Go channel as its receiver sees it: the values sent and not yet
    received, and whether the sender closed it. *)
Record chan (A : Type) := mkChan { queue : list A; closed : bool }.
Arguments mkChan {A} queue closed.
Arguments queue {A} c.
Arguments closed {A} c.

(** [v := <-ch]: the next value sent; on a closed channel with none left the
    zero value, at once; [None] when the receive blocks. *)
Definition recv {A} (zero : A) (ch : chan A) : option (A * chan A) :=
  match queue ch with
  | v :: q => Some (v, mkChan q (closed ch))
  | [] => if closed ch then Some (zero, ch) else None
  end.

Section Publisher.
(** The element type of [blocks.Blocks]. *)
Variable Block : Type.

Record BlockList := mkBlockList { Blocks : list Block }.

(** The zero value of the channel's element type: [Blocks] is nil. *)
Definition zeroBlockList : BlockList := mkBlockList [].

(** The loop's state: its channel, and the arguments of the calls
    [createRouteToBlocks(blocks.Blocks, *hostname, bird)] made so far. *)
Record Publisher := mkPublisher {
  blocksChannel : chan BlockList;
  rebuilds : list (list Block)
}.

(** One turn of [for { select { case blocks := <-blocksChannel: ... } }];
    [None] when the receive blocks.  The loop has no [break], [return] or
    second [select] case. *)
Definition main_turn (st : Publisher) : option Publisher :=
  match recv zeroBlockList (blocksChannel st) with
  | Some (blocks, ch') =>
      Some (mkPublisher ch' (rebuilds st ++ [Blocks blocks]))
  | None => None
  end.

(** At most [n] turns of the loop. *)
Fixpoint main_loop (n : nat) (st : Publisher) : Publisher :=
  match n with
  | O => st
  | S n' =>
      match main_turn st with
      | Some st' => main_loop n' st'
      | None => st
      end
  end.
End Publisher.
Arguments mkBlockList {Block} Blocks.
Arguments Blocks {Block} b.
Arguments mkPublisher {Block} blocksChannel rebuilds.
Arguments blocksChannel {Block} p.
Arguments rebuilds {Block} p.
Arguments main_turn {Block} st.
Arguments main_loop {Block} n st.

(** ** Deterministic doubles of the ports *)

(** A kernel routing table as the world of the shell: the targets that have
    a route.  [ip ro show T] prints a line when [T] has a route and nothing
    otherwise; [ip ro add T ...] adds the route and fails when there is one
    already. *)
#[global] Instance RouteTable : Executor (list string) := λ cmd args table,
  if negb (String.eqb cmd "/sbin/ip") then (Err (osError "exit status 127"), table)
  else match args with
  | ["ro"; "show"; target] =>
      if bool_decide (target ∈ table)
      then (Ok (b target ++ [NL]), table)
      else (Ok [], table)
  | "ro" :: "add" :: target :: _ =>
      if bool_decide (target ∈ table)
      then (Err (osError "exit status 2"), table)
      else (Ok [], table ++ [target])
  | _ => (Err (osError "exit status 255"), table)
  end.

(** The IPv4 case of [net.ParseCIDR]: [a.b.c.d/m] with decimal octets up
    to 255 and [m] up to 32; the address returned is masked by [m]. *)
Fixpoint split_on (sep : ascii) (cur : string) (s : string) : list string :=
  match s with
  | EmptyString => [cur]
  | String c rest =>
      if Ascii.eqb c sep then cur :: split_on sep "" rest
      else split_on sep (cur +:+ String c "") rest
  end.

Definition dtoi (s : string) : option Z :=
  match s with
  | EmptyString => None
  | _ => (λ u, Z.of_N (N.of_uint u)) <$> NilEmpty.uint_of_string s
  end.

Definition parseIPv4 (s : string) : option Z :=
  match dtoi <$> split_on "." "" s with
  | [Some o1; Some o2; Some o3; Some o4] =>
      if forallb (λ o, o <=? 255) [o1; o2; o3; o4]
      then Some (Z.shiftl o1 24 + Z.shiftl o2 16 + Z.shiftl o3 8 + o4)
      else None
  | _ => None
  end.

Definition IPv4_String (ip : Z) : string :=
  itoa (Z.land (Z.shiftr ip 24) 255) +:+ "." +:+
  itoa (Z.land (Z.shiftr ip 16) 255) +:+ "." +:+
  itoa (Z.land (Z.shiftr ip 8) 255) +:+ "." +:+
  itoa (Z.land ip 255).

Definition ParseCIDRv4 (s : string) : option IPNet :=
  match split_on "/" "" s with
  | [addr; mask] =>
      match parseIPv4 addr, dtoi mask with
      | Some ip, Some n =>
          if n <=? 32
          then Some (mkIPNet
                 (IPv4_String (Z.land ip (Z.shiftl (Z.ones n) (32 - n)))) n)
          else None
      | _, _ => None
      end
  | _ => None
  end.

(** ** [DhcpPid] *)

(** [strings.Trim(s, cutset)] for a cutset of ASCII characters: the bytes
    of the cutset are cut from both ends. *)
Definition inCutset (cutset : bytes) (c : ascii) : bool :=
  existsb (Ascii.eqb c) cutset.

Fixpoint TrimLeft (cutset s : bytes) : bytes :=
  match s with
  | c :: s' => if inCutset cutset c then TrimLeft cutset s' else s
  | [] => []
  end.

Definition TrimRight (cutset s : bytes) : bytes :=
  rev (TrimLeft cutset (rev s)).

Definition Trim (cutset s : bytes) : bytes :=
  TrimRight cutset (TrimLeft cutset s).

(** [strconv.Atoi]: an optional sign and decimal digits, at least one; the
    value is 0 with a syntax error, and the nearest 64-bit integer with a
    range error. *)
Inductive NumError := ErrSyntax | ErrRange.

#[global] Instance NumError_eq_dec : EqDecision NumError.
Proof. solve_decision. Defined.

Definition digitVal (c : ascii) : option Z :=
  let n := Z.of_nat (nat_of_ascii c) in
  if (48 <=? n) && (n <=? 57) then Some (n - 48) else None.

Fixpoint parseDigits (acc : Z) (s : bytes) : option Z :=
  match s with
  | [] => Some acc
  | c :: s' =>
      match digitVal c with
      | Some d => parseDigits (acc * 10 + d) s'
      | None => None
      end
  end.

Definition Atoi (s : bytes) : Z * option NumError :=
  let '(neg, body) :=
    match s with
    | c :: s' =>
        if Ascii.eqb c "+" then (false, s')
        else if Ascii.eqb c "-" then (true, s')
        else (false, s)
    | [] => (false, s)
    end in
  match body with
  | [] => (0, Some ErrSyntax)
  | _ :: _ =>
      match parseDigits 0 body with
      | None => (0, Some ErrSyntax)
      | Some un =>
          if neg then
            if 2 ^ 63 <? un then (- 2 ^ 63, Some ErrRange) else (- un, None)
          else
            if 2 ^ 63 <=? un then (2 ^ 63 - 1, Some ErrRange) else (un, None)
      end
  end.

(** The error [DhcpPid] returns, [shelloutError(err, cmd, args)], whose
    [err] is the error of [Exec], the error of [strconv.Atoi], or nil when
    the number is out of the range of a pid. *)
Inductive pidCause :=
| execFailed (err : error)
| atoiFailed (err : NumError).

Inductive pidError :=
| pidShelloutError (err : option pidCause) (cmd : string) (args : list string).

(** [DhcpPid]: the pid and the error it returns. *)
Definition DhcpPid `{Executor W} : Shell W → (Z * option pidError) * Shell W :=
  λ sh,
  let cmd := "ps" in
  let args := ["-C"; "dnsmasq-calico"; "-o"; "pid"; "--no-headers"] in
  match exec cmd args sh with
  | (Err err, sh') =>
      ((-1, Some (pidShelloutError (Some (execFailed err)) cmd args)), sh')
  | (Ok out, sh') =>
      let '(pid, err) := Atoi (Trim (b " " ++ [NL]) out) in
      if (65535 <? pid) || (pid <? 1) ||
         match err with Some _ => true | None => false end
      then ((pid, Some (pidShelloutError (atoiFailed <$> err) cmd args)), sh')
      else ((pid, None), sh')
  end.

(** ** The retry loop of [execMethod] *)

(** [http.Response] as the loop reads it. *)
Record Response := mkResponse { StatusCode : Z; Body : bytes }.

(** [http.StatusServiceUnavailable]. *)
Definition StatusServiceUnavailable : Z := 503.

(** [time.Millisecond]; a [time.Duration] counts nanoseconds in 64 bits. *)
Definition Millisecond : Z := 1000000.

(** [RestClientConfig] as the loop reads it. *)
Record RestClientConfig := mkRestClientConfig {
  Retries : Z;
  RetryStrategy : string
}.

(** What the loop does to the network: the calls of [rc.client.Do(req)] made
    so far, and the durations given to [time.Sleep], in order. *)
Record Net := mkNet { tried : nat; naps : list Z }.

(** How the loop and the check after it end: [return err]; a response that
    [execMethod] goes on to read; or no response at all, where the
    [resp.Body] that follows dereferences a nil pointer. *)
Inductive retryEnd :=
| retryError (err : error)
| retryResponse (resp : Response)
| retryNilResponse.

(** After the loop: [if err != nil { return err }], then [resp.Body]. *)
Definition afterLoop (resp : option Response) (err : option error) : retryEnd :=
  match err with
  | Some e => retryError e
  | None =>
      match resp with
      | Some r => retryResponse r
      | None => retryNilResponse
      end
  end.

Section Retry.
(** The constant [RestRetryStrategyExponential] is declared outside
    [client.go]. *)
Variable RestRetryStrategyExponential : string.
(** The duration [time.ParseDuration] returns for
    [fmt.Sprintf("%dms", 100*int(math.Pow(2, float64(i-1))))], a floating
    point computation. *)
Variable exponentialSleep : Z → Z.
(** The error of [http.NewRequest] for the method, URL and body of the
    call, the same at every turn; [None] when the request is built. *)
Variable newRequest : option error.
(** [rc.client.Do(req)] at its k-th call (from 0): a response, or an error
    (and a nil response). *)
Variable client_Do : nat → result Response.
Variable config : RestClientConfig.

(** The [switch rc.config.RetryStrategy] of a turn with [i > 0]: the new
    [sleepTime] and [prevSleepTime]. *)
Definition nextSleep (i sleepTime prevSleepTime : Z) : Z * Z :=
  if String.eqb (RetryStrategy config) RestRetryStrategyExponential
  then (exponentialSleep i, prevSleepTime)
  else if sleepTime =? 0 then (100 * Millisecond, prevSleepTime)
  else (wrapInt (sleepTime + prevSleepTime), sleepTime).

(** [for i := 0; i < rc.config.Retries; i++ { ... }] with [turns] turns
    left, followed by the check after the loop. *)
Fixpoint retry_from (turns : nat) (i sleepTime prevSleepTime : Z)
    (resp : option Response) (err : option error) (net : Net)
  : retryEnd * Net :=
  match turns with
  | O => (afterLoop resp err, net)
  | S turns' =>
      match newRequest with
      | Some e => (retryError e, net)
      | None =>
          let '(sleepTime, prevSleepTime, net) :=
            if 0 <? i then
              let '(st, pst) := nextSleep i sleepTime prevSleepTime in
              (st, pst, mkNet (tried net) (naps net ++ [st]))
            else (sleepTime, prevSleepTime, net) in
          match client_Do (tried net) with
          | Err e =>
              let net := mkNet (S (tried net)) (naps net) in
              if i =? Retries config - 1 then (retryError e, net)
              else retry_from turns' (i + 1) sleepTime prevSleepTime
                     None (Some e) net
          | Ok r =>
              let net := mkNet (S (tried net)) (naps net) in
              if negb (StatusCode r =? StatusServiceUnavailable)
              then (afterLoop (Some r) None, net)
              else retry_from turns' (i + 1) sleepTime prevSleepTime
                     (Some r) None net
          end
      end
  end.

(** The loop of [execMethod] for the schemes http and https. *)
Definition execMethod_retry (net : Net) : retryEnd * Net :=
  retry_from (Z.to_nat (Retries config)) 0 0 0 None None net.
End Retry.

(** ** Vocabulary of the statements *)

(** The content of the file at [path]; a missing file is created empty by
    [ensureLine] before it is read. *)
Definition content_of (fs : FileSystem) (path : string) : bytes :=
  default [] (fs !! path).

(** The outcome of the scan of [isLineInFile] on a content. *)
Definition lineInContent (token content : bytes) : bool :=
  existsb (λ line, Contains line token) (Scanner_lines content).

(** Lines written back one per line, each followed by a newline. *)
Definition joinLines (lines : list bytes) : bytes :=
  concat ((λ line, line ++ [NL]) <$> lines).

(** Number of lines of a content that are equal to the token. *)
Definition countLines (token content : bytes) : nat :=
  length (filter (λ line, line = token) (Scanner_lines content)).

(** A plain line: no newline inside, no carriage return at its end, and
    short enough for the scanner's buffer together with its newline. *)
Definition plain_line (line : bytes) : Prop :=
  (NL ∉ line) ∧ (last line ≠ Some CR) ∧
  (Z.of_nat (length line) + 1 <= MaxScanTokenSize)%Z.

#[global] Instance plain_line_dec line : Decision (plain_line line).
Proof. unfold plain_line. apply _. Defined.

(** Equality of contents up to the newlines at their end. *)
Fixpoint trimNL_rev (r : bytes) : bytes :=
  match r with
  | c :: r' => if Ascii.eqb c NL then trimNL_rev r' else r
  | [] => []
  end.
Definition trimNL (content : bytes) : bytes := rev (trimNL_rev (rev content)).
Definition sameModuloTrailingNewline (c1 c2 : bytes) : Prop :=
  trimNL c1 = trimNL c2.

(** The two commands the route helpers send to the shell. *)
Definition showCmd (ip netmask : string) : string * list string :=
  ("/sbin/ip", ["ro"; "show"; ip +:+ "/" +:+ netmask]).

Definition addCmd (ip netmask via dest : string) (extraArgs : list string)
  : string * list string :=
  ("/sbin/ip", ["ro"; "add"; ip +:+ "/" +:+ netmask; via; dest] ++ extraArgs).

Definition isRouteShow (c : string * list string) : bool :=
  match c with
  | (cmd, "ro" :: "show" :: _) => String.eqb cmd "/sbin/ip"
  | _ => false
  end.

Definition isRouteAdd (c : string * list string) : bool :=
  match c with
  | (cmd, "ro" :: "add" :: _) => String.eqb cmd "/sbin/ip"
  | _ => false
  end.

(** What [isRouteExist] makes of the result of its [ip ro show]: [None]
    when the route is there, the error it returns otherwise. *)
Definition queryError (c : string * list string) (r : result bytes)
  : option error :=
  match r with
  | Err err => Some (shelloutError err c.1 c.2)
  | Ok out => if (0 <? length out)%nat then None else Some noSuchRouteError
  end.

(** The commands a run has sent to the shell, from shell state [sh] to
    shell state [sh'], and how many of them satisfy [p]. *)
Definition issued {W} (sh sh' : Shell W) : list (string * list string) :=
  drop (length (calls sh)) (calls sh').

Definition countCalls (p : string * list string → bool)
    (cs : list (string * list string)) : nat :=
  length (List.filter p cs).

(** Whether the k-th call of [net.Interfaces()] lists the interface. *)
Definition ifaceListed (net_Interfaces : nat → option (list string))
    (expectedIface : string) (k : nat) : bool :=
  existsb (String.eqb expectedIface) (default [] (net_Interfaces k)).

(** A shell on which every command fails to run. *)
Inductive Broken := broken.
#[global] Instance BrokenShell : Executor Broken := λ cmd args w,
  (Err (osError "fork/exec: no such file or directory"), w).

(** The line an unfinished end of file makes, if any. *)
Definition tailLines (part : bytes) : list bytes :=
  match part with
  | [] => []
  | _ :: _ => [part]
  end.

(** Lines written with the end-of-line marker carriage return, newline. *)
Definition joinCRLF (lines : list bytes) : bytes :=
  concat ((λ line, line ++ [CR; NL]) <$> lines).

(** The CIDR of the peer host parses and its target has a route in the
    table. *)
Definition hostRouted (ParseCIDR : string → option IPNet) (host : Host)
    (table : list string) : Prop :=
  ∃ romanaCidr,
    ParseCIDR (RomanaIp host) = Some romanaCidr ∧
    IPNet_IP romanaCidr +:+ "/" +:+ itoa (Mask_Size romanaCidr) ∈ table.

(** The command [DhcpPid] sends. *)
Definition psCmd : string * list string :=
  ("ps", ["-C"; "dnsmasq-calico"; "-o"; "pid"; "--no-headers"]).

(** The bytes [strings.Trim(out, " \n")] cuts. *)
Definition isPad (c : ascii) : Prop := c = " "%char ∨ c = NL.

(** The characters of a decimal numeral. *)
Definition uint_chars (d : Decimal.uint) : bytes :=
  list_ascii_of_string (NilEmpty.string_of_uint d).

(** A host on which [ps] prints the given bytes. *)
Record PsHost := mkPsHost { psOutput : bytes }.
#[global] Instance PsShell : Executor PsHost := λ cmd args w,
  if String.eqb cmd "ps" then (Ok (psOutput w), w)
  else (Err (osError "exit status 127"), w).

(** A try after which the loop goes on when it is not the last one: an
    error, or the status 503. *)
Definition retried (r : result Response) : Prop :=
  match r with
  | Err _ => True
  | Ok resp => StatusCode resp = StatusServiceUnavailable
  end.

(** The Fibonacci numbers 0, 1, 1, 2, 3, 5, ... *)
Fixpoint fib_pair (n : nat) : Z * Z :=
  match n with
  | O => (0, 1)
  | S k => let '(x, y) := fib_pair k in (y, x + y)
  end.
Definition fib (n : nat) : Z := (fib_pair n).1.

(** ** Lemmas on strings and on the scanner *)

Lemma HasPrefix_refl s : HasPrefix s s = true.
Proof.
  induction s as [|c s IH]; simpl; [done|].
  by rewrite Ascii.eqb_refl, IH.
Qed.

Lemma Contains_refl s : Contains s s = true.
Proof. destruct s; simpl; [done|]. by rewrite Ascii.eqb_refl, HasPrefix_refl. Qed.

Lemma dropCR_plain line : last line ≠ Some CR → dropCR line = line.
Proof.
  unfold dropCR. destruct (last line) as [c|] eqn:E; [|done].
  intros Hne. destruct (Ascii.eqb_spec c CR) as [->|]; [done|done].
Qed.



(** Bytes other than a newline only extend the buffered line. *)
Lemma scan_from_app cur line rest :
  NL ∉ line → scan_from cur (line ++ rest) = scan_from (cur ++ line) rest.
Proof.
  revert cur. induction line as [|c line IH]; intros cur Hn; simpl.
  - by rewrite app_nil_r.
  - apply not_elem_of_cons in Hn as [Hc Hn].
    destruct (Ascii.eqb_spec c NL) as [->|_]; [done|].
    rewrite IH by done. by rewrite <- app_assoc.
Qed.

(** A whole line in front of the data. *)
Lemma Scanner_lines_line line rest :
  NL ∉ line →
  Scanner_lines (line ++ NL :: rest) =
    if Z.of_nat (length line) + 1 <=? MaxScanTokenSize
    then dropCR line :: Scanner_lines rest
    else [].
Proof.
  intros Hn. unfold Scanner_lines. rewrite scan_from_app by done.
  cbn [scan_from app]. by rewrite Ascii.eqb_refl.
Qed.

(** An unfinished last line. *)
Lemma Scanner_lines_last line :
  NL ∉ line → line ≠ [] →
  Scanner_lines line =
    if Z.of_nat (length line) <? MaxScanTokenSize then [dropCR line] else [].
Proof.
  intros Hn Hne. unfold Scanner_lines.
  rewrite <- (app_nil_r line) at 1. rewrite scan_from_app by done. simpl.
  by destruct line.
Qed.

Lemma joinLines_cons line lines :
  joinLines (line :: lines) = line ++ NL :: joinLines lines.
Proof. unfold joinLines. rewrite fmap_cons. simpl. by rewrite <- app_assoc. Qed.

Lemma joinLines_app lines1 lines2 :
  joinLines (lines1 ++ lines2) = joinLines lines1 ++ joinLines lines2.
Proof. unfold joinLines. by rewrite fmap_app, concat_app. Qed.

Lemma Scanner_lines_joinLines lines rest :
  Forall plain_line lines →
  Scanner_lines (joinLines lines ++ rest) = lines ++ Scanner_lines rest.
Proof.
  induction 1 as [|line lines [Hn [Hcr Hlen]] _ IH]; [done|].
  rewrite joinLines_cons, <- app_assoc, <- app_comm_cons.
  rewrite Scanner_lines_line by done.
  rewrite (proj2 (Z.leb_le _ _)) by done.
  by rewrite dropCR_plain, IH.
Qed.

Lemma Scanner_lines_text lines :
  Forall plain_line lines → Scanner_lines (joinLines lines) = lines.
Proof.
  intros H. rewrite <- (app_nil_r (joinLines lines)).
  rewrite Scanner_lines_joinLines by done. by rewrite app_nil_r.
Qed.

Lemma keepLines_filter token lines :
  keepLines token lines = joinLines (filter (λ line, line ≠ token) lines).
Proof.
  induction lines as [|line lines IH]; [done|]. simpl.
  rewrite filter_cons. case_bool_decide; case_decide; try done.
  by rewrite joinLines_cons, IH.
Qed.

Lemma Truncate_WriteAt0 buf content :
  Truncate (length buf) (WriteAt0 buf content) = buf.
Proof.
  unfold Truncate, WriteAt0. rewrite take_app_length.
  rewrite length_app. replace (length buf - _)%nat with 0%nat by lia.
  apply app_nil_r.
Qed.

(** ** [ensureLine] run on a file system *)

Ltac unfold_monad :=
  unfold mbind, M_bind, mret, M_ret, wrapErr, attempt, fail in *.

Lemma isLineInFile_run path token fs content :
  fs !! path = Some content →
  isLineInFile path token fs = (Ok (lineInContent token content), fs).
Proof.
  intros Hfs. unfold isLineInFile, Open. unfold_monad. by rewrite Hfs.
Qed.

Lemma appendLineToFile_run path token fs content :
  fs !! path = Some content →
  appendLineToFile path token fs =
    (Ok (), <[path := content ++ token ++ [NL]]> fs).
Proof.
  intros Hfs. unfold appendLineToFile, AppendFile_Write. by rewrite Hfs.
Qed.

Lemma removeLineFromFile_run path token fs content :
  fs !! path = Some content →
  removeLineFromFile path token fs =
    (Ok (), <[path := keepLines token (Scanner_lines content)]> fs).
Proof.
  intros Hfs. unfold removeLineFromFile, CopyAndTruncate, Open. unfold_monad.
  rewrite Hfs. cbv zeta. rewrite Hfs. by rewrite Truncate_WriteAt0.
Qed.

(** After [CreateIfMissing] the file is there, with the content it had. *)
Lemma CreateIfMissing_run path fs :
  ∃ fs', CreateIfMissing path fs = (Ok (), fs') ∧
         fs' !! path = Some (content_of fs path) ∧
         fs' = <[path := content_of fs path]> fs.
Proof.
  unfold CreateIfMissing, content_of. destruct (fs !! path) as [c|] eqn:E; simpl.
  - exists fs. by rewrite insert_id.
  - eexists. split; [done|]. by rewrite lookup_insert_eq.
Qed.

Lemma ensureLine_run path token op fs :
  ensureLine path token op fs =
    (Ok (),
     <[path :=
         match op, lineInContent token (content_of fs path) with
         | leaseAdd, false => content_of fs path ++ token ++ [NL]
         | leaseRemove, true =>
             keepLines token (Scanner_lines (content_of fs path))
         | _, _ => content_of fs path
         end]> fs).
Proof.
  destruct (CreateIfMissing_run path fs) as (fs' & Hc & Hl & Hfs').
  unfold ensureLine. unfold_monad. rewrite Hc.
  rewrite (isLineInFile_run _ _ _ _ Hl).
  destruct op, (lineInContent token (content_of fs path)); simpl.
  - by rewrite Hfs'.
  - rewrite (appendLineToFile_run _ _ _ _ Hl). by rewrite Hfs', insert_insert_eq.
  - rewrite (removeLineFromFile_run _ _ _ _ Hl). by rewrite Hfs', insert_insert_eq.
  - by rewrite Hfs'.
Qed.

Lemma lineInContent_elem token content :
  token ∈ Scanner_lines content → lineInContent token content = true.
Proof.
  intros Hin. unfold lineInContent. apply existsb_exists.
  exists token. split; [by apply list_elem_of_In|apply Contains_refl].
Qed.


Lemma lineInContent_false_not_elem token content :
  lineInContent token content = false → token ∉ Scanner_lines content.
Proof.
  intros Hf Hin. by rewrite (lineInContent_elem _ _ Hin) in Hf.
Qed.

Lemma filter_eq_not_elem (token : bytes) (lines : list bytes) :
  token ∉ lines → filter (λ line, line = token) lines = [].
Proof.
  induction lines as [|l lines IH]; [done|]. intros Hn.
  apply not_elem_of_cons in Hn as [Hne Hn].
  rewrite filter_cons_False by done. by apply IH.
Qed.

Lemma filter_ne_not_elem (token : bytes) (lines : list bytes) :
  token ∉ lines → filter (λ line, line ≠ token) lines = lines.
Proof.
  induction lines as [|l lines IH]; [done|]. intros Hn.
  apply not_elem_of_cons in Hn as [Hne Hn].
  rewrite filter_cons_True by done. by rewrite IH.
Qed.

Lemma filter_eq_filter_ne (token : bytes) (lines : list bytes) :
  filter (λ line, line = token) (filter (λ line, line ≠ token) lines) = [].
Proof.
  apply filter_eq_not_elem. intros Hin.
  apply list_elem_of_filter in Hin as [Hne _]. done.
Qed.

Lemma content_of_insert fs path content :
  content_of (<[path := content]> fs) path = content.
Proof. unfold content_of. by rewrite lookup_insert_eq. Qed.

Lemma joinLines_snoc lines token :
  joinLines lines ++ token ++ [NL] = joinLines (lines ++ [token]).
Proof.
  rewrite joinLines_app. f_equal. rewrite joinLines_cons.
  unfold joinLines. simpl. done.
Qed.

Lemma Forall_plain_filter (P : bytes → Prop) `{∀ x, Decision (P x)} lines :
  Forall plain_line lines → Forall plain_line (filter P lines).
Proof.
  intros HF. apply Forall_forall. intros l Hin.
  apply list_elem_of_filter in Hin as [_ Hin].
  by eapply Forall_forall in HF.
Qed.

(** ** Lease file lines: the properties *)

(** C3.  The presence check of [ensureLine] ([isLineInFile]) is claimed to
    report the token present exactly when a whole line of the file is equal
    to it.  The scan tests [strings.Contains(line, token)]: on the file
    holding the single line [token10] the check reports [token1] present,
    although no line of the file is equal to [token1]; [ensureLine] with
    [leaseAdd] then leaves the file as it is, without a line [token1]. *)
Theorem isLineInFile_substring :
  let fs : FileSystem := {[ "leases" := b "token10" ++ [NL] ]} in
  isLineInFile "leases" (b "token1") fs = (Ok true, fs) ∧
  Scanner_lines (content_of fs "leases") = [b "token10"] ∧
  (b "token1" ∉ Scanner_lines (content_of fs "leases")) ∧
  ensureLine "leases" (b "token1") leaseAdd fs = (Ok (), fs).
Proof.
  cbv zeta. split; [by vm_compute|]. split; [by vm_compute|].
  split; [|by vm_compute].
  replace (Scanner_lines _) with [b "token10"] by (by vm_compute).
  intros Hin. apply list_elem_of_singleton in Hin. by vm_compute in Hin.
Qed.

(** C5 as stated fails: [leaseAdd] of ["X"] on the file of the two lines
    ["X"], ["X"] succeeds and leaves two lines equal to ["X"]. *)
Lemma ensureLine_keeps_duplicates :
  let fs : FileSystem := {[ "leases" := b "X" ++ [NL] ++ b "X" ++ [NL] ]} in
  ∃ fs', ensureLine "leases" (b "X") leaseAdd fs = (Ok (), fs') ∧
         ¬ (countLines (b "X") (content_of fs' "leases") ≤ 1)%nat.
Proof.
  cbv zeta. eexists. split; [by vm_compute|].
  vm_compute. intros H. by repeat (apply le_S_n in H || inversion H).
Qed.

(** C5, amended.  For a file made of plain lines, each ended by a newline,
    with at most one line equal to the plain token: after [ensureLine]
    (which succeeds), with either operation, the file has at most one line
    equal to the token; and when the token occurs in the lines of the file
    only as a whole line, two calls with [leaseAdd] leave exactly one line
    equal to it. *)
Theorem ensureLine_at_most_one fs path token lines :
  content_of fs path = joinLines lines →
  Forall plain_line lines →
  plain_line token →
  (countLines token (content_of fs path) ≤ 1)%nat →
  (∀ op, ∃ fs',
     ensureLine path token op fs = (Ok (), fs') ∧
     (countLines token (content_of fs' path) ≤ 1)%nat) ∧
  ((∀ line, line ∈ lines → Contains line token = true → line = token) →
   ∃ fs1 fs2,
     ensureLine path token leaseAdd fs = (Ok (), fs1) ∧
     ensureLine path token leaseAdd fs1 = (Ok (), fs2) ∧
     countLines token (content_of fs2 path) = 1%nat).
Proof.
  intros Hc Hlines Htok Hcount.
  assert (Hscan : Scanner_lines (content_of fs path) = lines)
    by (rewrite Hc; by apply Scanner_lines_text).
  assert (Hadd : lineInContent token (content_of fs path) = false →
    Scanner_lines (content_of fs path ++ token ++ [NL]) = lines ++ [token] ∧
    countLines token (content_of fs path ++ token ++ [NL]) = 1%nat).
  { intros Habs. apply lineInContent_false_not_elem in Habs.
    rewrite Hscan in Habs. rewrite Hc, joinLines_snoc.
    assert (Hs : Scanner_lines (joinLines (lines ++ [token])) = lines ++ [token]).
    { apply Scanner_lines_text. apply Forall_app. split; [done|].
      by apply Forall_singleton. }
    split; [done|]. unfold countLines. rewrite Hs, filter_app.
    rewrite filter_eq_not_elem by done.
    by rewrite filter_cons_True, filter_nil by done. }
  split.
  - intros op. eexists. split; [apply ensureLine_run|].
    rewrite content_of_insert.
    destruct op, (lineInContent token (content_of fs path)) eqn:Hin; try done.
    + pose proof (Hadd eq_refl) as HH. destruct HH as [_ Hone].
      rewrite Hone. lia.
    + unfold countLines. rewrite Hscan, keepLines_filter.
      rewrite Scanner_lines_text by by apply Forall_plain_filter.
      rewrite filter_eq_filter_ne. simpl. lia.
  - intros Hwhole. do 2 eexists.
    split; [apply ensureLine_run|]. split; [apply ensureLine_run|].
    rewrite !content_of_insert.
    destruct (lineInContent token (content_of fs path)) eqn:Hin.
    + rewrite Hin. apply Nat.le_antisymm; [done|].
      unfold lineInContent in Hin. apply existsb_exists in Hin as (l & Hl & Hct).
      apply list_elem_of_In in Hl. rewrite Hscan in Hl.
      assert (l = token) as -> by by apply Hwhole.
      unfold countLines. rewrite Hscan.
      apply list_elem_of_split in Hl as (l1 & l2 & ->).
      rewrite filter_app, filter_cons_True, length_app by done. simpl. lia.
    + pose proof (Hadd eq_refl) as HH. destruct HH as [Hs Hone].
      rewrite (lineInContent_elem token (content_of fs path ++ token ++ [NL])).
      * done.
      * rewrite Hs, elem_of_app, list_elem_of_singleton. by right.
Qed.

Lemma ensureLine_at_most_one_witness :
  let fs : FileSystem := {[ "leases" := b "a" ++ [NL] ++ b "X" ++ [NL] ]} in
  ∃ fs1 fs2,
    ensureLine "leases" (b "X") leaseAdd fs = (Ok (), fs1) ∧
    ensureLine "leases" (b "X") leaseAdd fs1 = (Ok (), fs2) ∧
    countLines (b "X") (content_of fs2 "leases") = 1%nat.
Proof.
  cbv zeta.
  refine (proj2 (ensureLine_at_most_one _ "leases" (b "X") [b "a"; b "X"]
                   _ _ _ _) _).
  - by vm_compute.
  - by apply (bool_decide_unpack _); vm_compute.
  - by apply (bool_decide_unpack _); vm_compute.
  - vm_compute. lia.
  - intros line Hin Hct.
    repeat (apply elem_of_cons in Hin as [->|Hin]); try done.
    by apply elem_of_nil in Hin.
Defined.

(** C6 as stated fails: on the file of the single line ["X"], [leaseAdd] of
    ["X"] changes nothing and [leaseRemove] then deletes the line that was
    there before; the empty file left is not the first content, also up to
    newlines at the end. *)
Lemma ensureLine_add_remove_present :
  let fs : FileSystem := {[ "leases" := b "X" ++ [NL] ]} in
  ∃ fs1 fs2,
    ensureLine "leases" (b "X") leaseAdd fs = (Ok (), fs1) ∧
    ensureLine "leases" (b "X") leaseRemove fs1 = (Ok (), fs2) ∧
    content_of fs2 "leases" = [] ∧
    ¬ sameModuloTrailingNewline (content_of fs2 "leases") (content_of fs "leases").
Proof.
  cbv zeta. do 2 eexists. split; [by vm_compute|]. split; [by vm_compute|].
  split; [by vm_compute|]. by vm_compute.
Qed.

(** C6, amended.  For a file made of plain lines, each ended by a newline,
    none of which contains the plain token: [leaseAdd] followed by
    [leaseRemove] with that token both succeed and return the file to its
    content before the [leaseAdd], byte for byte; the other files are not
    touched. *)
Theorem ensureLine_add_remove fs path token lines :
  fs !! path = Some (joinLines lines) →
  Forall plain_line lines →
  plain_line token →
  lineInContent token (joinLines lines) = false →
  ∃ fs1,
    ensureLine path token leaseAdd fs = (Ok (), fs1) ∧
    fs1 !! path = Some (joinLines lines ++ token ++ [NL]) ∧
    ensureLine path token leaseRemove fs1 = (Ok (), fs).
Proof.
  intros Hfs Hlines Htok Habs.
  assert (Hc : content_of fs path = joinLines lines)
    by (unfold content_of; by rewrite Hfs).
  assert (Hs : Scanner_lines (joinLines (lines ++ [token])) = lines ++ [token]).
  { apply Scanner_lines_text. apply Forall_app. split; [done|].
    by apply Forall_singleton. }
  apply lineInContent_false_not_elem in Habs as Hnotin.
  rewrite Scanner_lines_text in Hnotin by done.
  eexists. split; [apply ensureLine_run|]. rewrite Hc, Habs.
  split; [by rewrite lookup_insert_eq|].
  rewrite ensureLine_run, content_of_insert, joinLines_snoc.
  rewrite lineInContent_elem by (rewrite Hs; set_solver).
  rewrite Hs, keepLines_filter, filter_app, filter_ne_not_elem by done.
  rewrite filter_cons_False, filter_nil, app_nil_r by (by intros []).
  by rewrite insert_insert_eq, insert_id.
Qed.

Lemma ensureLine_add_remove_witness :
  let fs : FileSystem := {[ "leases" := b "a" ++ [NL] ++ b "bc" ++ [NL] ]} in
  ∃ fs1,
    ensureLine "leases" (b "X") leaseAdd fs = (Ok (), fs1) ∧
    fs1 !! "leases" = Some (joinLines [b "a"; b "bc"] ++ b "X" ++ [NL]) ∧
    ensureLine "leases" (b "X") leaseRemove fs1 = (Ok (), fs).
Proof.
  cbv zeta. apply (ensureLine_add_remove _ "leases" (b "X") [b "a"; b "bc"]).
  - by vm_compute.
  - by apply (bool_decide_unpack _); vm_compute.
  - by apply (bool_decide_unpack _); vm_compute.
  - by vm_compute.
Defined.

(** [ensureLine] with [leaseRemove] on an existing file, by the outcome of
    the presence check: when the check finds the token (as it does whenever
    a line is equal to the token) the file is rewritten as its scanned
    lines, each followed by a newline, without the lines equal to the
    token; when the check does not find the token the file system is left
    as it is. *)
Theorem ensureLine_remove fs path token content :
  fs !! path = Some content →
  ensureLine path token leaseRemove fs =
    (Ok (),
     if lineInContent token content
     then <[path := joinLines
                      (filter (λ line, line ≠ token) (Scanner_lines content))]> fs
     else fs) ∧
  (token ∈ Scanner_lines content → lineInContent token content = true) ∧
  (token ∉ filter (λ line, line ≠ token) (Scanner_lines content)).
Proof.
  intros Hfs.
  assert (Hc : content_of fs path = content)
    by (unfold content_of; by rewrite Hfs).
  split; [|split].
  - rewrite ensureLine_run, Hc.
    destruct (lineInContent token content).
    + by rewrite keepLines_filter.
    + by rewrite insert_id.
  - apply lineInContent_elem.
  - intros Hin. by apply list_elem_of_filter in Hin as [Hne _].
Qed.

Lemma ensureLine_remove_witness :
  let content := b "token1" ++ [NL] ++ b "token2" ++ [NL] ++ b "token1" ++ [NL] in
  let fs : FileSystem := {[ "leases" := content ]} in
  ensureLine "leases" (b "token1") leaseRemove fs =
    (Ok (), {[ "leases" := b "token2" ++ [NL] ]}) ∧
  ensureLine "leases" (b "token3") leaseRemove fs = (Ok (), fs).
Proof.
  cbv zeta. split.
  - destruct (ensureLine_remove
                {[ "leases" := b "token1" ++ [NL] ++ b "token2" ++ [NL] ++
                               b "token1" ++ [NL] ]}
                "leases" (b "token1")
                (b "token1" ++ [NL] ++ b "token2" ++ [NL] ++ b "token1" ++ [NL]))
      as [Hrun _]; [by vm_compute|].
    etrans; [exact Hrun|]. by vm_compute.
  - destruct (ensureLine_remove
                {[ "leases" := b "token1" ++ [NL] ++ b "token2" ++ [NL] ++
                               b "token1" ++ [NL] ]}
                "leases" (b "token3")
                (b "token1" ++ [NL] ++ b "token2" ++ [NL] ++ b "token1" ++ [NL]))
      as [Hrun _]; [by vm_compute|].
    etrans; [exact Hrun|]. by vm_compute.
Defined.

(** C7.  [ensureLine] with [leaseRemove] is claimed to leave a file that does
    not hold the token as it is.  The presence check tests
    [strings.Contains(line, token)]: on the file [token10], without a
    newline at its end, no line is equal to [token1], yet the check reports
    it present and [removeLineFromFile] rewrites the file, which becomes
    [token10] followed by a newline. *)
Theorem ensureLine_remove_substring :
  let fs : FileSystem := {[ "leases" := b "token10" ]} in
  Scanner_lines (content_of fs "leases") = [b "token10"] ∧
  (b "token1" ∉ Scanner_lines (content_of fs "leases")) ∧
  isLineInFile "leases" (b "token1") fs = (Ok true, fs) ∧
  ∃ fs',
    ensureLine "leases" (b "token1") leaseRemove fs = (Ok (), fs') ∧
    fs' !! "leases" = Some (b "token10" ++ [NL]) ∧
    fs' !! "leases" ≠ fs !! "leases".
Proof.
  cbv zeta. split; [by vm_compute|]. split; [|split; [by vm_compute|]].
  - replace (Scanner_lines _) with [b "token10"] by (by vm_compute).
    intros Hin. apply list_elem_of_singleton in Hin. by vm_compute in Hin.
  - eexists. split; [by vm_compute|]. split; [by vm_compute|].
    by vm_compute.
Qed.

(** C10.  [ensureLine] with [leaseAdd], when the presence check does not find
    the token, succeeds and changes the file system at [path] only: the new
    content is the old one followed by the bytes of the token and one
    newline, so the old bytes are its prefix and the other files are as
    before.  When the old content ends in an unfinished line [part], the
    scanner reads the appended token as the end of that line: no line of
    the new file is equal to the token. *)
Theorem ensureLine_add_appends fs path token :
  lineInContent token (content_of fs path) = false →
  ensureLine path token leaseAdd fs =
    (Ok (), <[path := content_of fs path ++ token ++ [NL]]> fs) ∧
  take (length (content_of fs path)) (content_of fs path ++ token ++ [NL]) =
    content_of fs path ∧
  (∀ other, other ≠ path →
     <[path := content_of fs path ++ token ++ [NL]]> fs !! other = fs !! other) ∧
  (∀ lines part,
     content_of fs path = joinLines lines ++ part →
     Forall plain_line lines → part ≠ [] → plain_line (part ++ token) →
     Scanner_lines (content_of fs path ++ token ++ [NL]) =
       lines ++ [part ++ token] ∧
     countLines token (content_of fs path ++ token ++ [NL]) = 0%nat).
Proof.
  intros Habs. split; [|split; [|split]].
  - rewrite ensureLine_run. by rewrite Habs.
  - apply take_app_length.
  - intros other Hne. by apply lookup_insert_ne.
  - intros lines part Hc Hlines Hpart Hjoined.
    assert (Hs : Scanner_lines (content_of fs path ++ token ++ [NL]) =
                 lines ++ [part ++ token]).
    { rewrite Hc.
      replace ((joinLines lines ++ part) ++ token ++ [NL])
        with (joinLines (lines ++ [part ++ token])).
      2:{ rewrite joinLines_app, joinLines_cons. unfold joinLines. simpl.
          by rewrite <- !app_assoc. }
      apply Scanner_lines_text. apply Forall_app. split; [done|].
      by apply Forall_singleton. }
    split; [done|]. unfold countLines. rewrite Hs, filter_app.
    rewrite filter_eq_not_elem, filter_cons_False, filter_nil; [done| |].
    + intros Heq. apply (f_equal length) in Heq. rewrite length_app in Heq.
      destruct part; [done|]. simpl in Heq. lia.
    + intros Hin. apply lineInContent_false_not_elem in Habs. apply Habs.
      rewrite Hc. destruct Hjoined as (Hn & _ & _).
      apply not_elem_of_app in Hn as [Hn _].
      pose proof (Scanner_lines_joinLines lines part Hlines) as ->.
      set_solver.
Qed.

Lemma ensureLine_add_appends_witness :
  let fs : FileSystem := {[ "leases" := b "a" ++ [NL] ++ b "bc" ]} in
  ensureLine "leases" (b "X") leaseAdd fs =
    (Ok (), {[ "leases" := b "a" ++ [NL] ++ b "bcX" ++ [NL] ]}) ∧
  Scanner_lines (b "a" ++ [NL] ++ b "bcX" ++ [NL]) = [b "a"; b "bcX"].
Proof.
  cbv zeta.
  destruct (ensureLine_add_appends {[ "leases" := b "a" ++ [NL] ++ b "bc" ]}
              "leases" (b "X")) as (Hrun & _ & _ & Hjoin); [by vm_compute|].
  split.
  - etrans; [exact Hrun|]. by vm_compute.
  - destruct (Hjoin [b "a"] (b "bc")) as [Hs _].
    + by vm_compute.
    + by apply (bool_decide_unpack _); vm_compute.
    + done.
    + by apply (bool_decide_unpack _); vm_compute.
    + etrans; [|exact Hs]. by vm_compute.
Defined.

(** ** Route helpers run on a shell *)

Section RouteFacts.
Context {W : Type} `{!Executor W}.
Implicit Types (sh : Shell W) (w : W).

Lemma exec_run cmd args w cs r w' :
  Exec cmd args w = (r, w') →
  exec cmd args (mkShell w cs) = (r, mkShell w' (cs ++ [(cmd, args)])).
Proof. intros HE. unfold exec. cbn [world calls]. by rewrite HE. Qed.

Lemma isRouteExist_run ip netmask w cs r w' :
  Exec (showCmd ip netmask).1 (showCmd ip netmask).2 w = (r, w') →
  isRouteExist ip netmask (mkShell w cs) =
    (match queryError (showCmd ip netmask) r with
     | None => Ok ()
     | Some err => Err err
     end,
     mkShell w' (cs ++ [showCmd ip netmask])).
Proof.
  intros HE. unfold isRouteExist, showCmd in *. cbn [fst snd] in *.
  unfold_monad. rewrite (exec_run _ _ _ _ _ _ HE). unfold queryError.
  destruct r as [out|err]; [|done]. by destruct (0 <? length out)%nat.
Qed.

Lemma createRoute_run ip netmask via dest extraArgs w cs r w' :
  Exec (addCmd ip netmask via dest extraArgs).1
       (addCmd ip netmask via dest extraArgs).2 w = (r, w') →
  createRoute ip netmask via dest extraArgs (mkShell w cs) =
    (match r with
     | Ok _ => Ok ()
     | Err err =>
         Err (shelloutError err (addCmd ip netmask via dest extraArgs).1
                (addCmd ip netmask via dest extraArgs).2)
     end,
     mkShell w' (cs ++ [addCmd ip netmask via dest extraArgs])).
Proof.
  intros HE. unfold createRoute, addCmd in *. cbn [fst snd] in *.
  unfold_monad. rewrite (exec_run _ _ _ _ _ _ HE). by destruct r.
Qed.

(** The loop over two lists of hosts in a row. *)
Lemma rangeHosts_app ParseCIDR hosts1 hosts2 sh :
  rangeHosts ParseCIDR (hosts1 ++ hosts2) sh =
    match rangeHosts ParseCIDR hosts1 sh with
    | (Ok _, sh') => rangeHosts ParseCIDR hosts2 sh'
    | (Err err, sh') => (Err err, sh')
    end.
Proof.
  revert sh. induction hosts1 as [|host hosts1 IH]; intros sh; [done|].
  simpl. unfold_monad.
  destruct (ensureInterHostRoute ParseCIDR host sh) as [[[]|err] sh1]; [|done].
  apply IH.
Qed.
End RouteFacts.


(** ** Route helpers: the properties *)

(** C1 as stated fails: with the peers [bogus] (no CIDR) and [10.1.0.0/16]
    in this order and an empty routing table, [ensureInterHostRoutes]
    returns the parse error at the first peer and sends nothing to the
    shell: the second peer gets no existence check and no route, which it
    gets when it is the only peer. *)
Lemma ensureInterHostRoutes_aborts :
  let bad := mkHost "192.168.0.11" "bogus" 9999 "HOST1000" in
  let good := mkHost "192.168.0.12" "10.1.0.0/16" 9999 "HOST2000" in
  let h hosts := mkAgent (mkNetworkConfig "10.0.0.1" hosts 16) 2 in
  let sh0 : Shell (list string) := mkShell [] [] in
  ParseCIDRv4 (RomanaIp bad) = None ∧
  ParseCIDRv4 (RomanaIp good) = Some (mkIPNet "10.1.0.0" 16) ∧
  ensureInterHostRoutes ParseCIDRv4 (h [good]) sh0 =
    (Ok (), mkShell ["10.1.0.0/16"]
              [showCmd "10.1.0.0" "16";
               addCmd "10.1.0.0" "16" "via" "192.168.0.12" []]) ∧
  ∃ sh',
    ensureInterHostRoutes ParseCIDRv4 (h [bad; good]) sh0 =
      (Err (failedToParseOtherHosts "bogus"), sh') ∧
    (showCmd "10.1.0.0" "16" ∉ calls sh') ∧
    ("10.1.0.0/16" ∉ world sh').
Proof.
  cbv zeta. split; [by vm_compute|]. split; [by vm_compute|].
  split; [by vm_compute|]. eexists. split; [by vm_compute|].
  cbn [calls world]. split; apply not_elem_of_nil.
Qed.

(** C1, amended.  [ensureInterHostRoutes] stops at a peer whose overlay CIDR
    does not parse: the peers listed before it are processed as they are
    when the list ends there; unless a route creation failed for one of
    them, the call returns the parse error of that peer; nothing is sent to
    the shell for the peers listed after it. *)
Theorem ensureInterHostRoutes_stops_at_parse_failure
    {W : Type} `{!Executor W} (ParseCIDR : string → option IPNet) (h : Agent)
    (before after : list Host) (bad : Host) (sh : Shell W) :
  otherHosts (networkConfig h) = before ++ bad :: after →
  ParseCIDR (RomanaIp bad) = None →
  ensureInterHostRoutes ParseCIDR h sh =
    match rangeHosts ParseCIDR before sh with
    | (Ok _, sh') => (Err (failedToParseOtherHosts (RomanaIp bad)), sh')
    | (Err err, sh') => (Err err, sh')
    end.
Proof.
  intros Hhosts Hbad. unfold ensureInterHostRoutes.
  rewrite Hhosts, rangeHosts_app.
  destruct (rangeHosts ParseCIDR before sh) as [[[]|err] sh']; [|done].
  simpl. unfold ensureInterHostRoute. rewrite Hbad. by unfold_monad.
Qed.

Lemma ensureInterHostRoutes_stops_at_parse_failure_witness :
  let good1 := mkHost "192.168.0.12" "10.1.0.0/16" 9999 "HOST2000" in
  let bad := mkHost "192.168.0.11" "bogus" 9999 "HOST1000" in
  let good2 := mkHost "192.168.0.13" "10.2.0.0/16" 9999 "HOST3000" in
  let h := mkAgent (mkNetworkConfig "10.0.0.1" [good1; bad; good2] 16) 2 in
  ensureInterHostRoutes ParseCIDRv4 h (mkShell ([] : list string) []) =
    (Err (failedToParseOtherHosts "bogus"),
     mkShell ["10.1.0.0/16"]
       [showCmd "10.1.0.0" "16"; addCmd "10.1.0.0" "16" "via" "192.168.0.12" []]).
Proof.
  cbv zeta.
  etrans.
  - apply (ensureInterHostRoutes_stops_at_parse_failure ParseCIDRv4 _
             [mkHost "192.168.0.12" "10.1.0.0/16" 9999 "HOST2000"]
             [mkHost "192.168.0.13" "10.2.0.0/16" 9999 "HOST3000"]
             (mkHost "192.168.0.11" "bogus" 9999 "HOST1000")).
    + reflexivity.
    + by vm_compute.
  - by vm_compute.
Defined.

Lemma issued_app {W} (sh sh' : Shell W) cs :
  calls sh' = calls sh ++ cs → issued sh sh' = cs.
Proof. intros Hc. unfold issued. by rewrite Hc, drop_app_length. Qed.

(** C2.  [ensureRouteToEndpoint] is idempotent.  When [ip ro show] prints
    something for the endpoint's target, the call sends that one command
    and succeeds, without [ip ro add].  On a shell where the route is
    first found absent, the route creation succeeds and the route is then
    found, two calls in a row succeed and send [ip ro show], [ip ro add],
    [ip ro show]: one [add] and two [show], the second call sending no
    [add]. *)
Theorem ensureRouteToEndpoint_idempotent
    {W : Type} `{!Executor W} (h : Agent) (netif : NetIf) :
  let mask := itoa (EndpointNetmaskSize (networkConfig h)) in
  let show := showCmd (IP netif) mask in
  let add := addCmd (IP netif) mask "dev" (Name netif)
               ["src"; romanaGW (networkConfig h)] in
  (∀ (sh : Shell W) out w1,
     Exec show.1 show.2 (world sh) = (Ok out, w1) → out ≠ [] →
     ∃ sh1, ensureRouteToEndpoint h netif sh = (Ok (), sh1) ∧
            world sh1 = w1 ∧ issued sh sh1 = [show] ∧
            countCalls isRouteAdd (issued sh sh1) = 0%nat) ∧
  (∀ (sh : Shell W) r0 w1 out1 w2 out2 w3,
     Exec show.1 show.2 (world sh) = (r0, w1) → queryError show r0 ≠ None →
     Exec add.1 add.2 w1 = (Ok out1, w2) →
     Exec show.1 show.2 w2 = (Ok out2, w3) → out2 ≠ [] →
     ∃ sh1 sh2,
       ensureRouteToEndpoint h netif sh = (Ok (), sh1) ∧
       ensureRouteToEndpoint h netif sh1 = (Ok (), sh2) ∧
       world sh2 = w3 ∧
       issued sh sh1 = [show; add] ∧
       issued sh1 sh2 = [show] ∧
       issued sh sh2 = [show; add; show] ∧
       countCalls isRouteAdd (issued sh sh2) = 1%nat ∧
       countCalls isRouteShow (issued sh sh2) = 2%nat ∧
       countCalls isRouteAdd (issued sh1 sh2) = 0%nat).
Proof.
  intros mask show add.
  assert (Hfound : ∀ (sh : Shell W) out w1,
    Exec show.1 show.2 (world sh) = (Ok out, w1) → out ≠ [] →
    ensureRouteToEndpoint h netif sh = (Ok (), mkShell w1 (calls sh ++ [show]))).
  { intros [w cs] out w1 Hshow Hout. cbn [world calls] in *.
    unfold ensureRouteToEndpoint. unfold_monad.
    fold mask. rewrite (isRouteExist_run _ _ _ _ _ _ Hshow). fold show.
    destruct out; [done|]. done. }
  split.
  - intros sh out w1 Hshow Hout. eexists. split; [by eapply Hfound|].
    split; [done|]. rewrite (issued_app sh _ [show]) by done. done.
  - intros [w cs] r0 w1 out1 w2 out2 w3 Hshow Habs Hadd Hshow2 Hout2.
    cbn [world calls] in *.
    exists (mkShell w2 (cs ++ [show; add])).
    exists (mkShell w3 (cs ++ [show; add; show])).
    assert (Hfirst : ensureRouteToEndpoint h netif (mkShell w cs) =
                       (Ok (), mkShell w2 (cs ++ [show; add]))).
    { unfold ensureRouteToEndpoint. unfold_monad. fold mask.
      rewrite (isRouteExist_run _ _ _ _ _ _ Hshow). fold show.
      destruct (queryError show r0) as [qerr|]; [|done]. cbv beta iota.
      rewrite (createRoute_run _ _ _ _ _ _ _ _ _ Hadd). fold add.
      by rewrite <- app_assoc. }
    split; [done|]. split.
    { rewrite (Hfound _ out2 w3) by done. cbn [calls].
      by rewrite <- app_assoc. }
    split; [done|].
    rewrite (issued_app (mkShell w cs) _ [show; add]) by done.
    rewrite (issued_app (mkShell w2 _) _ [show])
      by (cbn [calls]; by rewrite <- app_assoc).
    rewrite (issued_app (mkShell w cs) _ [show; add; show]) by done.
    done.
Qed.

Lemma ensureRouteToEndpoint_idempotent_witness :
  let h := mkAgent (mkNetworkConfig "10.0.0.1" [] 16) 2 in
  let netif := mkNetIf "veth0" "10.0.0.5" in
  let show := showCmd "10.0.0.5" "16" in
  let add := addCmd "10.0.0.5" "16" "dev" "veth0" ["src"; "10.0.0.1"] in
  ∃ sh1 sh2 : Shell (list string),
    ensureRouteToEndpoint h netif (mkShell [] []) = (Ok (), sh1) ∧
    ensureRouteToEndpoint h netif sh1 = (Ok (), sh2) ∧
    world sh2 = ["10.0.0.5/16"] ∧
    calls sh2 = [show; add; show] ∧
    countCalls isRouteAdd (calls sh2) = 1%nat ∧
    countCalls isRouteShow (calls sh2) = 2%nat.
Proof.
  cbv zeta.
  destruct (ensureRouteToEndpoint_idempotent (W := list string)
              (mkAgent (mkNetworkConfig "10.0.0.1" [] 16) 2)
              (mkNetIf "veth0" "10.0.0.5")) as [_ Htwice].
  destruct (Htwice (mkShell [] []) (Ok []) [] [] ["10.0.0.5/16"]
              (b "10.0.0.5/16" ++ [NL]) ["10.0.0.5/16"])
    as (sh1 & sh2 & H1 & H2 & Hw & _ & _ & Hcalls & Hadd & Hshow & _).
  - by vm_compute.
  - by vm_compute.
  - by vm_compute.
  - by vm_compute.
  - by vm_compute.
  - exists sh1, sh2. split; [exact H1|]. split; [exact H2|].
    split; [exact Hw|]. unfold issued in *. cbn [calls length drop] in *.
    split; [exact Hcalls|]. split; [exact Hadd|exact Hshow].
Defined.

(** C9.  In [ensureRouteToEndpoint] and in the loop of
    [ensureInterHostRoutes], whatever error the existence check returns,
    the execution failure of [ip ro show] as well as the empty output, the
    route creation is sent next and alone decides the outcome: success
    when it succeeds, and otherwise a route creation error (which for a
    peer host carries the error of the check).  The error of the check is
    not returned as such. *)
Theorem route_query_error_creates
    {W : Type} `{!Executor W} (ParseCIDR : string → option IPNet) (h : Agent) :
  (∀ (netif : NetIf) (sh : Shell W) rq w1 qerr ra w2,
     let mask := itoa (EndpointNetmaskSize (networkConfig h)) in
     let show := showCmd (IP netif) mask in
     let add := addCmd (IP netif) mask "dev" (Name netif)
                  ["src"; romanaGW (networkConfig h)] in
     Exec show.1 show.2 (world sh) = (rq, w1) →
     queryError show rq = Some qerr →
     Exec add.1 add.2 w1 = (ra, w2) →
     ensureRouteToEndpoint h netif sh =
       (match ra with
        | Ok _ => Ok ()
        | Err err =>
            Err (netIfRouteCreateError (shelloutError err add.1 add.2) netif)
        end,
        mkShell w2 (calls sh ++ [show; add]))) ∧
  (∀ (host : Host) (romanaCidr : IPNet) (sh : Shell W) rq w1 qerr ra w2,
     let romanaMask := itoa (Mask_Size romanaCidr) in
     let show := showCmd (IPNet_IP romanaCidr) romanaMask in
     let add := addCmd (IPNet_IP romanaCidr) romanaMask "via" (Ip host) [] in
     ParseCIDR (RomanaIp host) = Some romanaCidr →
     Exec show.1 show.2 (world sh) = (rq, w1) →
     queryError show rq = Some qerr →
     Exec add.1 add.2 w1 = (ra, w2) →
     ensureInterHostRoute ParseCIDR host sh =
       (match ra with
        | Ok _ => Ok ()
        | Err _ =>
            Err (routeCreateError qerr (IPNet_IP romanaCidr) romanaMask (Ip host))
        end,
        mkShell w2 (calls sh ++ [show; add]))).
Proof.
  split.
  - intros netif [w cs] rq w1 qerr ra w2 mask show add Hshow Hq Hadd.
    cbn [world calls] in *.
    unfold ensureRouteToEndpoint. unfold_monad. fold mask.
    rewrite (isRouteExist_run _ _ _ _ _ _ Hshow). fold show. rewrite Hq.
    cbv beta iota. rewrite (createRoute_run _ _ _ _ _ _ _ _ _ Hadd). fold add.
    rewrite <- app_assoc. by destruct ra.
  - intros host romanaCidr [w cs] rq w1 qerr ra w2 romanaMask show add
      Hparse Hshow Hq Hadd. cbn [world calls] in *.
    unfold ensureInterHostRoute. rewrite Hparse. unfold_monad. fold romanaMask.
    rewrite (isRouteExist_run _ _ _ _ _ _ Hshow). fold show. rewrite Hq.
    cbv beta iota. rewrite (createRoute_run _ _ _ _ _ _ _ _ _ Hadd). fold add.
    rewrite <- app_assoc. by destruct ra.
Qed.

Lemma route_query_error_creates_witness :
  let h := mkAgent (mkNetworkConfig "10.0.0.1" [] 16) 2 in
  let netif := mkNetIf "veth0" "10.0.0.5" in
  let host := mkHost "192.168.0.12" "10.1.0.0/16" 9999 "HOST2000" in
  let down := osError "fork/exec: no such file or directory" in
  ensureRouteToEndpoint h netif (mkShell broken []) =
    (Err (netIfRouteCreateError
            (shelloutError down "/sbin/ip"
               ["ro"; "add"; "10.0.0.5/16"; "dev"; "veth0"; "src"; "10.0.0.1"])
            netif),
     mkShell broken
       [showCmd "10.0.0.5" "16";
        addCmd "10.0.0.5" "16" "dev" "veth0" ["src"; "10.0.0.1"]]) ∧
  ensureInterHostRoute ParseCIDRv4 host (mkShell broken []) =
    (Err (routeCreateError
            (shelloutError down "/sbin/ip" ["ro"; "show"; "10.1.0.0/16"])
            "10.1.0.0" "16" "192.168.0.12"),
     mkShell broken
       [showCmd "10.1.0.0" "16";
        addCmd "10.1.0.0" "16" "via" "192.168.0.12" []]).
Proof.
  cbv zeta.
  destruct (route_query_error_creates (W := Broken) ParseCIDRv4
              (mkAgent (mkNetworkConfig "10.0.0.1" [] 16) 2)) as [Hend Hhost].
  split.
  - etrans.
    + eapply (Hend (mkNetIf "veth0" "10.0.0.5") (mkShell broken [])).
      * by vm_compute.
      * by vm_compute.
      * by vm_compute.
    + by vm_compute.
  - etrans.
    + eapply (Hhost (mkHost "192.168.0.12" "10.1.0.0/16" 9999 "HOST2000")
                (mkIPNet "10.1.0.0" 16) (mkShell broken [])).
      * by vm_compute.
      * by vm_compute.
      * by vm_compute.
      * by vm_compute.
    + by vm_compute.
Defined.

(** ** Interface wait: the properties *)

Lemma wrapInt_id z : -2 ^ 63 <= z < 2 ^ 63 → wrapInt z = z.
Proof. intros Hz. unfold wrapInt. rewrite Z.mod_small; lia. Qed.

Lemma wrapInt_range z : -2 ^ 63 <= wrapInt z <= MaxInt.
Proof.
  unfold wrapInt, MaxInt.
  pose proof (Z.mod_pos_bound (z + 2 ^ 63) (2 ^ 64) ltac:(lia)). lia.
Qed.

Section WaitFacts.
Variable net_Interfaces : nat → option (list string).
Variable h : Agent.
Variable expectedIface : string.
Hypothesis Htry : waitForIfaceTry h < MaxInt.

Local Abbreviation listed := (ifaceListed net_Interfaces expectedIface).

(** The loop with [m] turns left, none of which sees the interface. *)
Lemma waitForIface_from_false m : ∀ i p s fuel,
  0 <= i → waitForIfaceTry h + 1 - i <= Z.of_nat m →
  Z.of_nat m <= Z.max 0 (waitForIfaceTry h + 1 - i) →
  (∀ j, (j < m)%nat → listed (p + j)%nat = false) →
  (m < fuel)%nat →
  waitForIface_from net_Interfaces h fuel expectedIface i (mkSys p s) =
    Some (false, mkSys (p + m) (s + m)).
Proof.
  induction m as [|m IH]; intros i p s fuel Hi Hle Hge Hno Hfuel.
  - destruct fuel as [|fuel]; [lia|]. simpl.
    rewrite (proj2 (Z.leb_gt _ _)) by lia.
    by rewrite !Nat.add_0_r.
  - destruct fuel as [|fuel]; [lia|]. simpl.
    rewrite (proj2 (Z.leb_le _ _)) by lia.
    pose proof (Hno 0%nat ltac:(lia)) as H0. rewrite Nat.add_0_r in H0.
    unfold listed, ifaceListed in H0. rewrite H0.
    rewrite wrapInt_id by (unfold MaxInt in Htry; lia).
    rewrite (IH (i + 1) (S p) (S s) fuel); try lia.
    + do 2 f_equal. f_equal; lia.
    + intros j Hj. replace (S p + j)%nat with (p + S j)%nat by lia.
      apply Hno. lia.
Qed.

(** The loop when the [k]-th turn from now is the first to see the
    interface. *)
Lemma waitForIface_from_true k : ∀ i p s fuel,
  0 <= i → i + Z.of_nat k <= waitForIfaceTry h →
  (∀ j, (j < k)%nat → listed (p + j)%nat = false) →
  listed (p + k)%nat = true →
  (k < fuel)%nat →
  waitForIface_from net_Interfaces h fuel expectedIface i (mkSys p s) =
    Some (true, mkSys (p + k + 1) (s + k)).
Proof.
  induction k as [|k IH]; intros i p s fuel Hi Hle Hno Hyes Hfuel.
  - destruct fuel as [|fuel]; [lia|]. simpl.
    rewrite (proj2 (Z.leb_le _ _)) by lia.
    rewrite Nat.add_0_r in Hyes. unfold listed, ifaceListed in Hyes.
    rewrite Hyes. do 2 f_equal. f_equal; lia.
  - destruct fuel as [|fuel]; [lia|]. simpl.
    rewrite (proj2 (Z.leb_le _ _)) by lia.
    pose proof (Hno 0%nat ltac:(lia)) as H0. rewrite Nat.add_0_r in H0.
    unfold listed, ifaceListed in H0. rewrite H0.
    rewrite wrapInt_id by (unfold MaxInt in Htry; lia).
    rewrite (IH (i + 1) (S p) (S s) fuel); try lia.
    + do 2 f_equal. f_equal; lia.
    + intros j Hj. replace (S p + j)%nat with (p + S j)%nat by lia.
      apply Hno. lia.
    + replace (S p + k)%nat with (p + S k)%nat by lia. done.
Qed.
End WaitFacts.

(** C8 as stated fails: with [waitForIfaceTry] 2 and an interface that never
    shows up, [waitForIface] returns false after three calls of
    [net.Interfaces()], not two, and three sleeps. *)
Lemma waitForIface_polls_once_more :
  let h := mkAgent (mkNetworkConfig "10.0.0.1" [] 16) 2 in
  ∃ sys, waitForIface (λ _, Some ["lo"; "eth0"]) h 10 "veth0" (mkSys 0 0) =
           Some (false, sys) ∧
         polled sys = 3%nat ∧
         polled sys ≠ Z.to_nat (waitForIfaceTry h).
Proof. cbv zeta. eexists. split; [by vm_compute|]. by vm_compute. Qed.

(** C8, amended.  [waitForIface] polls for counter values 0 up to
    [waitForIfaceTry] included, that is [waitForIfaceTry + 1] times at most
    (not at all when [waitForIfaceTry] is negative), and sleeps after every
    poll that does not see the interface.  For [waitForIfaceTry] below the
    largest [int] it returns: true at the first poll that lists the
    interface, after that many polls less one sleep; false after
    [waitForIfaceTry + 1] polls and as many sleeps when none of them lists
    it. *)
Theorem waitForIface_bounded
    (net_Interfaces : nat → option (list string)) (h : Agent)
    (expectedIface : string) :
  waitForIfaceTry h < MaxInt →
  let n := Z.to_nat (waitForIfaceTry h + 1) in
  (∀ k fuel,
     (k < n)%nat → (k < fuel)%nat →
     (∀ j, (j < k)%nat → ifaceListed net_Interfaces expectedIface j = false) →
     ifaceListed net_Interfaces expectedIface k = true →
     waitForIface net_Interfaces h fuel expectedIface (mkSys 0 0) =
       Some (true, mkSys (k + 1) k)) ∧
  (∀ fuel,
     (n < fuel)%nat →
     (∀ j, (j < n)%nat → ifaceListed net_Interfaces expectedIface j = false) →
     waitForIface net_Interfaces h fuel expectedIface (mkSys 0 0) =
       Some (false, mkSys n n)).
Proof.
  intros Htry n. split.
  - intros k fuel Hk Hfuel Hno Hyes. unfold waitForIface.
    rewrite (waitForIface_from_true net_Interfaces h expectedIface Htry k);
      try done; lia.
  - intros fuel Hfuel Hno. unfold waitForIface.
    rewrite (waitForIface_from_false net_Interfaces h expectedIface Htry n);
      try done; lia.
Qed.

Lemma waitForIface_bounded_witness :
  let h := mkAgent (mkNetworkConfig "10.0.0.1" [] 16) 2 in
  let late (k : nat) :=
    if (k <? 2)%nat then Some ["lo"] else Some ["lo"; "veth0"] in
  waitForIface late h 5 "veth0" (mkSys 0 0) = Some (true, mkSys 3 2) ∧
  waitForIface (λ _, None) h 5 "veth0" (mkSys 0 0) = Some (false, mkSys 3 3).
Proof.
  cbv zeta. split.
  - refine (proj1 (waitForIface_bounded _
                     (mkAgent (mkNetworkConfig "10.0.0.1" [] 16) 2) "veth0" _)
              2%nat 5%nat _ _ _ _).
    + by vm_compute.
    + vm_compute. lia.
    + lia.
    + intros [|[|j]] Hj; [done|done|lia].
    + done.
  - refine (proj2 (waitForIface_bounded (λ _, None)
                     (mkAgent (mkNetworkConfig "10.0.0.1" [] 16) 2) "veth0" _)
              5%nat _ _).
    + by vm_compute.
    + vm_compute. lia.
    + done.
Defined.

(** X13.  With [waitForIfaceTry] at the largest [int] the loop condition
    always holds, the counter wrapping around: while the interface is not
    listed the loop does not return, however many turns it is given. *)
Lemma waitForIface_MaxInt_no_return
    (net_Interfaces : nat → option (list string)) (h : Agent)
    (expectedIface : string) :
  waitForIfaceTry h = MaxInt →
  (∀ k, ifaceListed net_Interfaces expectedIface k = false) →
  ∀ fuel sys, waitForIface net_Interfaces h fuel expectedIface sys = None.
Proof.
  intros Hmax Hno fuel. unfold waitForIface.
  assert (Hgen : ∀ i sys, i <= MaxInt →
    waitForIface_from net_Interfaces h fuel expectedIface i sys = None).
  { induction fuel as [|fuel IH]; intros i sys Hi; [done|]. simpl.
    rewrite (proj2 (Z.leb_le _ _)) by lia.
    pose proof (Hno (polled sys)) as H0. unfold ifaceListed in H0. rewrite H0.
    apply IH. apply wrapInt_range. }
  intros sys. apply Hgen. by vm_compute.
Qed.

(** ** The receive loop: the properties *)

(** C4 as stated fails: on a channel that is closed with nothing left to
    receive, the loop does not stop; each of three further turns receives
    the zero value and calls [createRouteToBlocks] again, with no block,
    and a fourth turn is ready. *)
Lemma main_loop_spins_after_close :
  let st : Publisher string := mkPublisher (mkChan [] true) [] in
  rebuilds (main_loop 3 st) = [[]; []; []] ∧
  closed (blocksChannel (main_loop 3 st)) = true ∧
  is_Some (main_turn (main_loop 3 st)).
Proof. cbv zeta. split; [done|]. split; [done|]. by eexists. Qed.

(** C4, amended.  The loop has no exit.  It calls [createRouteToBlocks] on
    each snapshot received, in the order of arrival; when the channel is
    drained and open the receive blocks; once the channel is closed and
    drained every further turn receives the zero value at once and calls
    [createRouteToBlocks] again with no block, turn after turn. *)
Theorem main_loop_run {Block : Type} (events : list (BlockList Block))
    (cl : bool) (log : list (list Block)) (n : nat) :
  rebuilds (main_loop n (mkPublisher (mkChan events cl) log)) =
    log ++ take n (Blocks <$> events) ++
    (if cl then replicate (n - length events) [] else []) ∧
  (cl = true → ∀ log' : list (list Block),
     is_Some (main_turn (mkPublisher (mkChan [] cl) log'))) ∧
  (cl = false → ∀ log' : list (list Block),
     main_turn (mkPublisher (mkChan [] cl) log') = None).
Proof.
  split; [|split].
  - revert events log. induction n as [|n IH]; intros events log.
    + cbn [main_loop rebuilds]. rewrite take_0.
      destruct cl; cbn [replicate Nat.sub app]; by rewrite app_nil_r.
    + destruct events as [|e events].
      * destruct cl; simpl.
        -- unfold main_turn, recv. cbn [blocksChannel queue closed rebuilds].
           rewrite (IH [] (log ++ [[]])). rewrite fmap_nil, !take_nil.
           cbn [app length]. rewrite Nat.sub_0_r, <- app_assoc. done.
        -- by rewrite app_nil_r.
      * simpl. unfold main_turn, recv. cbn [blocksChannel queue closed rebuilds].
        rewrite (IH events (log ++ [Blocks e])). by rewrite <- app_assoc.
  - intros -> log'. by eexists.
  - by intros -> log'.
Qed.

Lemma main_loop_run_witness :
  let s1 : BlockList string := mkBlockList ["10.1.0.0/16"] in
  let s2 : BlockList string := mkBlockList ["10.1.0.0/16"; "10.2.0.0/16"] in
  rebuilds (main_loop 4 (mkPublisher (mkChan [s1; s2] true) [])) =
    [["10.1.0.0/16"]; ["10.1.0.0/16"; "10.2.0.0/16"]; []; []] ∧
  is_Some (main_turn (mkPublisher (mkChan [] true) ([] : list (list string)))).
Proof.
  cbv zeta.
  destruct (main_loop_run
              [mkBlockList ["10.1.0.0/16"];
               mkBlockList ["10.1.0.0/16"; "10.2.0.0/16"]] true
              ([] : list (list string)) 4) as (Hrun & Hgo & _).
  split.
  - etrans; [exact Hrun|]. by vm_compute.
  - apply (Hgo eq_refl).
Defined.

(** ** Lease file lines: further properties *)

Lemma dropCR_no_NL line : NL ∉ line → NL ∉ dropCR line.
Proof.
  unfold dropCR. destruct (last line) as [c|]; [|done].
  destruct (Ascii.eqb c CR); [|done].
  intros Hn Hin. apply Hn. by eapply subseteq_take.
Qed.

Lemma dropCR_snoc_CR line : dropCR (line ++ [CR]) = line.
Proof.
  unfold dropCR. rewrite last_snoc. cbn [Ascii.eqb CR Bool.eqb].
  rewrite length_app. cbn [length].
  replace (length line + 1 - 1)%nat with (length line) by lia.
  by rewrite take_app_length.
Qed.

(** No scanned line holds a newline. *)
Lemma scan_from_no_NL data : ∀ cur line,
  NL ∉ cur → line ∈ scan_from cur data → NL ∉ line.
Proof.
  induction data as [|c data IH]; intros cur line Hcur Hin; simpl in Hin.
  - destruct cur as [|c0 cur]; [by apply elem_of_nil in Hin|].
    destruct (Z.of_nat (length (c0 :: cur)) <? MaxScanTokenSize);
      [|by apply elem_of_nil in Hin].
    apply list_elem_of_singleton in Hin as ->. by apply dropCR_no_NL.
  - destruct (Ascii.eqb_spec c NL) as [->|Hc].
    + destruct (Z.of_nat (length cur) + 1 <=? MaxScanTokenSize);
        [|by apply elem_of_nil in Hin].
      apply elem_of_cons in Hin as [->|Hin]; [by apply dropCR_no_NL|].
      eapply IH; [|done]. apply not_elem_of_nil.
    + eapply IH; [|done]. apply not_elem_of_app. split; [done|].
      intros Hx. apply list_elem_of_singleton in Hx. done.
Qed.

Lemma HasPrefix_elem s t c : HasPrefix s t = true → c ∈ t → c ∈ s.
Proof.
  revert s. induction t as [|p t IH]; intros s Hp Hin;
    [by apply elem_of_nil in Hin|].
  destruct s as [|c0 s]; [done|]. simpl in Hp.
  apply andb_true_iff in Hp as [Hc Ht]. apply Ascii.eqb_eq in Hc as ->.
  apply elem_of_cons in Hin as [->|Hin]; [by left|]. right. by apply IH.
Qed.

Lemma Contains_elem s t c : Contains s t = true → c ∈ t → c ∈ s.
Proof.
  induction s as [|c0 s IH]; simpl; intros Hc Hin.
  - rewrite orb_false_r in Hc. by eapply HasPrefix_elem.
  - apply orb_true_iff in Hc as [Hp|Hc]; [by eapply HasPrefix_elem|].
    right. by apply IH.
Qed.


Lemma lineInContent_NL token content :
  NL ∈ token → lineInContent token content = false.
Proof.
  intros Hnl. unfold lineInContent.
  destruct (existsb _ _) eqn:E; [|done].
  apply existsb_exists in E as (line & Hin & Hc).
  apply list_elem_of_In in Hin.
  exfalso. eapply (scan_from_no_NL content [] line); [apply not_elem_of_nil|done|].
  by eapply Contains_elem.
Qed.

(** A text file: plain lines, and possibly an unfinished plain last line. *)

Lemma Scanner_lines_plain_tail lines part :
  Forall plain_line lines → plain_line part →
  Scanner_lines (joinLines lines ++ part) = lines ++ tailLines part.
Proof.
  intros Hl (Hn & Hcr & Hlen). rewrite Scanner_lines_joinLines by done.
  destruct part as [|c part]; [done|].
  rewrite Scanner_lines_last by done.
  rewrite (proj2 (Z.ltb_lt _ _)) by lia. by rewrite dropCR_plain.
Qed.

Lemma Forall_plain_tail part : plain_line part → Forall plain_line (tailLines part).
Proof. intros Hp. destruct part; [constructor|by apply Forall_singleton]. Qed.

Lemma Scanner_lines_joinCRLF lines :
  Forall plain_line lines →
  Forall (λ line, Z.of_nat (length line) + 2 <= MaxScanTokenSize) lines →
  Scanner_lines (joinCRLF lines) = lines.
Proof.
  intros Hp. induction Hp as [|line lines (Hn & Hcr & _) _ IH]; intros Hlen;
    [done|].
  apply Forall_cons in Hlen as [Hlen Hrest].
  unfold joinCRLF in *. rewrite fmap_cons. cbn [concat].
  rewrite <- app_assoc. cbn [app].
  replace (line ++ CR :: NL :: concat ((λ l, l ++ [CR; NL]) <$> lines))
    with ((line ++ [CR]) ++ NL :: concat ((λ l, l ++ [CR; NL]) <$> lines))
    by (by rewrite <- app_assoc).
  rewrite Scanner_lines_line.
  - rewrite length_app. cbn [length].
    rewrite (proj2 (Z.leb_le _ _)) by lia.
    by rewrite dropCR_snoc_CR, IH.
  - apply not_elem_of_app. split; [done|]. intros Hx.
    apply list_elem_of_singleton in Hx. done.
Qed.

(** An overlong line stops the scan: the lines before it are all there is. *)
Lemma Scanner_lines_overlong lines long rest :
  Forall plain_line lines → NL ∉ long →
  MaxScanTokenSize < Z.of_nat (length long) + 1 →
  Scanner_lines (joinLines lines ++ long ++ NL :: rest) = lines.
Proof.
  intros Hl Hn Hlen. rewrite Scanner_lines_joinLines by done.
  rewrite Scanner_lines_line by done.
  rewrite (proj2 (Z.leb_gt _ _)) by lia. by rewrite app_nil_r.
Qed.

(** X1.  A token that holds a newline is never found by [isLineInFile],
    whatever the file: [ensureLine] with [leaseAdd] appends it at every call
    (two calls leave two copies) and with [leaseRemove] changes nothing. *)
Theorem ensureLine_newline_token fs path token content :
  NL ∈ token →
  fs !! path = Some content →
  isLineInFile path token fs = (Ok false, fs) ∧
  (∃ fs1,
     ensureLine path token leaseAdd fs = (Ok (), fs1) ∧
     fs1 !! path = Some (content ++ token ++ [NL]) ∧
     ∃ fs2,
       ensureLine path token leaseAdd fs1 = (Ok (), fs2) ∧
       fs2 !! path = Some ((content ++ token ++ [NL]) ++ token ++ [NL])) ∧
  ensureLine path token leaseRemove fs = (Ok (), fs).
Proof.
  intros Hnl Hfs.
  assert (Hc : content_of fs path = content)
    by (unfold content_of; by rewrite Hfs).
  split; [|split].
  - rewrite (isLineInFile_run _ _ _ _ Hfs). by rewrite lineInContent_NL.
  - eexists. split; [apply ensureLine_run|].
    rewrite Hc, lineInContent_NL by done.
    split; [by rewrite lookup_insert_eq|].
    eexists. split; [apply ensureLine_run|].
    rewrite content_of_insert, lineInContent_NL by done.
    by rewrite lookup_insert_eq.
  - rewrite ensureLine_run, Hc, lineInContent_NL by done. by rewrite insert_id.
Qed.

Lemma ensureLine_newline_token_witness :
  let token := b "a" ++ [NL] ++ b "b" in
  let fs : FileSystem := {[ "leases" := token ++ [NL] ]} in
  isLineInFile "leases" token fs = (Ok false, fs) ∧
  ensureLine "leases" token leaseRemove fs = (Ok (), fs).
Proof.
  cbv zeta.
  destruct (ensureLine_newline_token
              {[ "leases" := (b "a" ++ [NL] ++ b "b") ++ [NL] ]} "leases"
              (b "a" ++ [NL] ++ b "b") ((b "a" ++ [NL] ++ b "b") ++ [NL]))
    as (Hfind & _ & Hrm).
  - apply elem_of_app. right. apply elem_of_app. left. by left.
  - by vm_compute.
  - by split.
Defined.



(** X3.  On a text file [removeLineFromFile] keeps the lines that differ
    from the token, in their order, each followed by a newline: the
    scanner reads from the new file exactly the old lines without the ones
    equal to the token, and an unfinished last line gets its newline. *)
Theorem removeLineFromFile_text fs path token lines part :
  fs !! path = Some (joinLines lines ++ part) →
  Forall plain_line lines →
  plain_line part →
  let kept := filter (λ line, line ≠ token) (lines ++ tailLines part) in
  removeLineFromFile path token fs = (Ok (), <[path := joinLines kept]> fs) ∧
  Scanner_lines (joinLines kept) = kept ∧
  (token ∉ Scanner_lines (joinLines kept)).
Proof.
  intros Hfs Hlines Hpart kept.
  assert (Hk : Forall plain_line kept).
  { apply Forall_plain_filter, Forall_app. split; [done|].
    by apply Forall_plain_tail. }
  split; [|split].
  - rewrite (removeLineFromFile_run _ _ _ _ Hfs).
    by rewrite Scanner_lines_plain_tail, keepLines_filter.
  - by apply Scanner_lines_text.
  - rewrite Scanner_lines_text by done. intros Hin.
    by apply list_elem_of_filter in Hin as [Hne _].
Qed.

Lemma removeLineFromFile_text_witness :
  let fs : FileSystem :=
    {[ "leases" := b "a" ++ [NL] ++ b "X" ++ [NL] ++ b "bc" ]} in
  removeLineFromFile "leases" (b "X") fs =
    (Ok (), {[ "leases" := b "a" ++ [NL] ++ b "bc" ++ [NL] ]}).
Proof.
  cbv zeta.
  destruct (removeLineFromFile_text
              {[ "leases" := b "a" ++ [NL] ++ b "X" ++ [NL] ++ b "bc" ]}
              "leases" (b "X") [b "a"; b "X"] (b "bc")) as (Hrun & _ & _).
  - by vm_compute.
  - by apply (bool_decide_unpack _); vm_compute.
  - by apply (bool_decide_unpack _); vm_compute.
  - etrans; [exact Hrun|]. by vm_compute.
Defined.

(** X4.  On a text file [ensureLine] with [leaseRemove] is idempotent: a
    second call right after the first one succeeds and leaves the file
    system as the first call left it. *)
Theorem ensureLine_remove_twice fs path token lines part :
  content_of fs path = joinLines lines ++ part →
  Forall plain_line lines →
  plain_line part →
  ∃ fs1,
    ensureLine path token leaseRemove fs = (Ok (), fs1) ∧
    ensureLine path token leaseRemove fs1 = (Ok (), fs1).
Proof.
  intros Hc Hlines Hpart.
  eexists. split; [apply ensureLine_run|].
  rewrite ensureLine_run, content_of_insert, insert_insert_eq.
  destruct (lineInContent token (content_of fs path)) eqn:Hin.
  - rewrite Hc, Scanner_lines_plain_tail, keepLines_filter by done.
    set (kept := filter (λ line, line ≠ token) (lines ++ tailLines part)).
    assert (Hk : Forall plain_line kept).
    { apply Forall_plain_filter, Forall_app. split; [done|].
      by apply Forall_plain_tail. }
    destruct (lineInContent token (joinLines kept)); [|done].
    rewrite Scanner_lines_text, keepLines_filter by done.
    rewrite filter_ne_not_elem; [done|].
    intros Hx. by apply list_elem_of_filter in Hx as [Hne _].
  - by rewrite Hin.
Qed.

Lemma ensureLine_remove_twice_witness :
  let fs : FileSystem :=
    {[ "leases" := b "aX" ++ [NL] ++ b "X" ++ [NL] ++ b "bc" ]} in
  ∃ fs1,
    ensureLine "leases" (b "X") leaseRemove fs = (Ok (), fs1) ∧
    ensureLine "leases" (b "X") leaseRemove fs1 = (Ok (), fs1).
Proof.
  cbv zeta.
  apply (ensureLine_remove_twice _ "leases" (b "X") [b "aX"; b "X"] (b "bc")).
  - by vm_compute.
  - by apply (bool_decide_unpack _); vm_compute.
  - by apply (bool_decide_unpack _); vm_compute.
Defined.

(** X5.  On a file whose lines all end in carriage return, newline, a line
    matches the token without its carriage return, and [removeLineFromFile]
    writes the kept lines back with a bare newline: the rewrite turns the
    file into a file of newline-ended lines. *)
Theorem removeLineFromFile_crlf fs path token lines :
  fs !! path = Some (joinCRLF lines) →
  Forall plain_line lines →
  Forall (λ line, Z.of_nat (length line) + 2 <= MaxScanTokenSize) lines →
  removeLineFromFile path token fs =
    (Ok (), <[path := joinLines (filter (λ line, line ≠ token) lines)]> fs) ∧
  (token ∈ lines → isLineInFile path token fs = (Ok true, fs)).
Proof.
  intros Hfs Hlines Hlen. split.
  - rewrite (removeLineFromFile_run _ _ _ _ Hfs).
    by rewrite Scanner_lines_joinCRLF, keepLines_filter.
  - intros Hin. rewrite (isLineInFile_run _ _ _ _ Hfs).
    rewrite lineInContent_elem; [done|]. by rewrite Scanner_lines_joinCRLF.
Qed.

Lemma removeLineFromFile_crlf_witness :
  let fs : FileSystem :=
    {[ "leases" := b "a" ++ [CR; NL] ++ b "X" ++ [CR; NL] ++ b "bc" ++ [CR; NL] ]} in
  removeLineFromFile "leases" (b "X") fs =
    (Ok (), {[ "leases" := b "a" ++ [NL] ++ b "bc" ++ [NL] ]}).
Proof.
  cbv zeta.
  destruct (removeLineFromFile_crlf
              {[ "leases" := b "a" ++ [CR; NL] ++ b "X" ++ [CR; NL] ++
                             b "bc" ++ [CR; NL] ]}
              "leases" (b "X") [b "a"; b "X"; b "bc"]) as (Hrun & _).
  - by vm_compute.
  - by apply (bool_decide_unpack _); vm_compute.
  - by apply (bool_decide_unpack _); vm_compute.
  - etrans; [exact Hrun|]. by vm_compute.
Defined.

(** X6.  A line longer than the scanner's buffer ends the scan without an
    error being looked at: [isLineInFile] sees the lines before it only,
    and [removeLineFromFile] rewrites the file as the kept lines among
    those, so that the long line and all that follows it are dropped from
    the file. *)
Theorem removeLineFromFile_overlong fs path token lines long rest :
  fs !! path = Some (joinLines lines ++ long ++ NL :: rest) →
  Forall plain_line lines →
  NL ∉ long →
  MaxScanTokenSize < Z.of_nat (length long) + 1 →
  isLineInFile path token fs =
    (Ok (existsb (λ line, Contains line token) lines), fs) ∧
  removeLineFromFile path token fs =
    (Ok (), <[path := joinLines (filter (λ line, line ≠ token) lines)]> fs).
Proof.
  intros Hfs Hlines Hn Hlen. split.
  - rewrite (isLineInFile_run _ _ _ _ Hfs). unfold lineInContent.
    by rewrite Scanner_lines_overlong.
  - rewrite (removeLineFromFile_run _ _ _ _ Hfs).
    by rewrite Scanner_lines_overlong, keepLines_filter.
Qed.

Lemma removeLineFromFile_overlong_witness :
  let long := replicate (Z.to_nat MaxScanTokenSize) "a"%char in
  let fs : FileSystem :=
    {[ "leases" := joinLines [b "X"; b "a"] ++ long ++ NL :: b "tail" ]} in
  removeLineFromFile "leases" (b "X") fs =
    (Ok (), <[ "leases" := joinLines (filter (λ line, line ≠ b "X")
                                        [b "X"; b "a"]) ]> fs).
Proof.
  cbv zeta.
  refine (proj2 (removeLineFromFile_overlong _ "leases" (b "X") [b "X"; b "a"]
                   (replicate (Z.to_nat MaxScanTokenSize) "a"%char) (b "tail")
                   _ _ _ _)).
  - apply lookup_singleton_eq.
  - by apply (bool_decide_unpack _); vm_compute.
  - intros Hin. apply elem_of_replicate in Hin as [Heq _]. done.
  - rewrite length_replicate. unfold MaxScanTokenSize. lia.
Defined.

(** X7.  On a path that has no file [ensureLine] creates the file, with
    either operation: [leaseAdd] leaves the file holding the token and a
    newline, whatever the token, and [leaseRemove] leaves an empty file. *)
Theorem ensureLine_missing_file fs path token :
  fs !! path = None →
  ensureLine path token leaseAdd fs = (Ok (), <[path := token ++ [NL]]> fs) ∧
  ensureLine path token leaseRemove fs = (Ok (), <[path := []]> fs).
Proof.
  intros Hfs.
  assert (Hc : content_of fs path = []) by (unfold content_of; by rewrite Hfs).
  split; rewrite ensureLine_run, Hc; done.
Qed.

Lemma ensureLine_missing_file_witness :
  ensureLine "leases" (b "X") leaseAdd ∅ = (Ok (), {[ "leases" := b "X" ++ [NL] ]}) ∧
  ensureLine "leases" (b "X") leaseRemove ∅ = (Ok (), {[ "leases" := [] ]}).
Proof.
  destruct (ensureLine_missing_file ∅ "leases" (b "X")) as [Hadd Hrm].
  - apply lookup_empty.
  - split; [etrans; [exact Hadd|]|etrans; [exact Hrm|]]; by rewrite insert_empty.
Defined.

(** X8.  The empty token is found in every file in which the scanner reads a
    line, empty or not: there [ensureLine] with [leaseAdd] adds nothing, and
    with [leaseRemove] it rewrites the file without its empty lines. *)
Theorem ensureLine_empty_token fs path content :
  fs !! path = Some content →
  Scanner_lines content ≠ [] →
  isLineInFile path [] fs = (Ok true, fs) ∧
  ensureLine path [] leaseAdd fs = (Ok (), fs) ∧
  ensureLine path [] leaseRemove fs =
    (Ok (), <[path := joinLines
                        (filter (λ line, line ≠ []) (Scanner_lines content))]> fs).
Proof.
  intros Hfs Hne.
  assert (Hc : content_of fs path = content)
    by (unfold content_of; by rewrite Hfs).
  assert (Hin : lineInContent [] content = true).
  { unfold lineInContent. destruct (Scanner_lines content) as [|l ls]; [done|].
    simpl. by destruct l. }
  split; [|split].
  - by rewrite (isLineInFile_run _ _ _ _ Hfs), Hin.
  - rewrite ensureLine_run, Hc, Hin. by rewrite insert_id.
  - rewrite ensureLine_run, Hc, Hin, keepLines_filter.
    do 3 f_equal. by apply list_filter_iff.
Qed.

Lemma ensureLine_empty_token_witness :
  let fs : FileSystem := {[ "leases" := b "a" ++ [NL; NL] ++ b "b" ++ [NL] ]} in
  ensureLine "leases" [] leaseAdd fs = (Ok (), fs) ∧
  ensureLine "leases" [] leaseRemove fs =
    (Ok (), {[ "leases" := b "a" ++ [NL] ++ b "b" ++ [NL] ]}).
Proof.
  cbv zeta.
  destruct (ensureLine_empty_token
              {[ "leases" := b "a" ++ [NL; NL] ++ b "b" ++ [NL] ]} "leases"
              (b "a" ++ [NL; NL] ++ b "b" ++ [NL])) as (_ & Hadd & Hrm).
  - by vm_compute.
  - by vm_compute.
  - split; [exact Hadd|]. etrans; [exact Hrm|]. by vm_compute.
Defined.

(** ** Route helpers: further properties *)

Section RouteLoopFacts.
Context {W : Type} `{!Executor W}.
Variable ParseCIDR : string → option IPNet.

(** One turn of the loop of [ensureInterHostRoutes], case by case. *)
Lemma ensureInterHostRoute_run host (w : W) cs :
  match ParseCIDR (RomanaIp host) with
  | None =>
      ensureInterHostRoute ParseCIDR host (mkShell w cs) =
        (Err (failedToParseOtherHosts (RomanaIp host)), mkShell w cs)
  | Some romanaCidr =>
      let romanaMask := itoa (Mask_Size romanaCidr) in
      let show := showCmd (IPNet_IP romanaCidr) romanaMask in
      let add := addCmd (IPNet_IP romanaCidr) romanaMask "via" (Ip host) [] in
      ∀ rq w1, Exec show.1 show.2 w = (rq, w1) →
        match queryError show rq with
        | None =>
            ensureInterHostRoute ParseCIDR host (mkShell w cs) =
              (Ok (), mkShell w1 (cs ++ [show]))
        | Some qerr =>
            ∀ ra w2, Exec add.1 add.2 w1 = (ra, w2) →
              ensureInterHostRoute ParseCIDR host (mkShell w cs) =
                (match ra with
                 | Ok _ => Ok ()
                 | Err _ =>
                     Err (routeCreateError qerr (IPNet_IP romanaCidr)
                            romanaMask (Ip host))
                 end,
                 mkShell w2 (cs ++ [show; add]))
        end
  end.
Proof.
  unfold ensureInterHostRoute.
  destruct (ParseCIDR (RomanaIp host)) as [romanaCidr|]; [|done].
  cbv zeta. intros rq w1 Hshow. unfold_monad.
  rewrite (isRouteExist_run _ _ _ _ _ _ Hshow).
  destruct (queryError _ rq) as [qerr|]; [|done].
  intros ra w2 Hadd. cbv beta iota.
  rewrite (createRoute_run _ _ _ _ _ _ _ _ _ Hadd).
  rewrite <- app_assoc. by destruct ra.
Qed.

(** What a successful turn has sent: a [show], or a [show] and an [add]. *)
Lemma ensureInterHostRoute_ok host (sh sh' : Shell W) :
  ensureInterHostRoute ParseCIDR host sh = (Ok (), sh') →
  is_Some (ParseCIDR (RomanaIp host)) ∧
  ∃ c1 rest,
    calls sh' = calls sh ++ c1 :: rest ∧ isRouteShow c1 = true ∧
    isRouteAdd c1 = false ∧
    (rest = [] ∨ ∃ c2, rest = [c2] ∧ isRouteAdd c2 = true ∧ isRouteShow c2 = false).
Proof.
  destruct sh as [w cs]. intros Hrun.
  pose proof (ensureInterHostRoute_run host w cs) as Hcase.
  destruct (ParseCIDR (RomanaIp host)) as [romanaCidr|];
    [|by rewrite Hcase in Hrun].
  split; [by eexists|]. cbv zeta in Hcase.
  destruct (Exec (showCmd (IPNet_IP romanaCidr) (itoa (Mask_Size romanaCidr))).1
              (showCmd (IPNet_IP romanaCidr) (itoa (Mask_Size romanaCidr))).2 w)
    as [rq w1] eqn:Hshow.
  specialize (Hcase rq w1 eq_refl).
  destruct (queryError _ rq) as [qerr|].
  - destruct (Exec (addCmd (IPNet_IP romanaCidr) (itoa (Mask_Size romanaCidr))
                      "via" (Ip host) []).1
                (addCmd (IPNet_IP romanaCidr) (itoa (Mask_Size romanaCidr))
                      "via" (Ip host) []).2 w1) as [ra w2] eqn:Hadd.
    specialize (Hcase ra w2 eq_refl). rewrite Hcase in Hrun.
    destruct ra; [|done]. injection Hrun as <-.
    eexists _, _. split; [done|]. split; [done|]. split; [done|].
    right. by eexists.
  - rewrite Hcase in Hrun. injection Hrun as <-.
    eexists _, _. split; [done|]. split; [done|]. split; [done|]. by left.
Qed.

Lemma rangeHosts_ok hosts : ∀ (sh sh' : Shell W),
  rangeHosts ParseCIDR hosts sh = (Ok (), sh') →
  Forall (λ host, is_Some (ParseCIDR (RomanaIp host))) hosts ∧
  ∃ cs,
    calls sh' = calls sh ++ cs ∧
    countCalls isRouteShow cs = length hosts ∧
    (countCalls isRouteAdd cs ≤ length hosts)%nat ∧
    Forall (λ c, isRouteShow c || isRouteAdd c = true) cs.
Proof.
  induction hosts as [|host hosts IH]; intros sh sh' Hrun.
  - injection Hrun as <-. split; [constructor|].
    exists []. rewrite app_nil_r. repeat split; try done; lia.
  - simpl in Hrun. unfold_monad.
    destruct (ensureInterHostRoute ParseCIDR host sh) as [[[]|err] sh1] eqn:Hone;
      [|done].
    apply ensureInterHostRoute_ok in Hone
      as (Hparse & c1 & rest & Hcalls & Hs1 & Ha1 & Hrest).
    apply IH in Hrun as (Hall & cs & Hcs & Hshow & Hadd & Honly).
    split; [by constructor|].
    exists (c1 :: rest ++ cs). split.
    { rewrite Hcs, Hcalls, <- app_assoc. done. }
    unfold countCalls in *.
    destruct Hrest as [->|(c2 & -> & Ha2 & Hs2)];
      cbn [List.filter app]; rewrite ?Hs1, ?Ha1, ?Ha2, ?Hs2; cbn [length].
    + split; [lia|]. split; [lia|].
      constructor; [by rewrite Hs1|done].
    + split; [lia|]. split; [lia|].
      constructor; [by rewrite Hs1|]. constructor; [|done].
      rewrite Ha2. apply orb_true_r.
Qed.
End RouteLoopFacts.

(** X9.  When [ensureInterHostRoutes] returns without error, the overlay
    CIDR of every peer host parsed, and the shell received one
    [ip ro show] for each peer, at most one [ip ro add] for each peer, and
    no other command. *)
Theorem ensureInterHostRoutes_success
    {W : Type} `{!Executor W} (ParseCIDR : string → option IPNet) (h : Agent)
    (sh sh' : Shell W) :
  ensureInterHostRoutes ParseCIDR h sh = (Ok (), sh') →
  let hosts := otherHosts (networkConfig h) in
  Forall (λ host, is_Some (ParseCIDR (RomanaIp host))) hosts ∧
  countCalls isRouteShow (issued sh sh') = length hosts ∧
  (countCalls isRouteAdd (issued sh sh') ≤ length hosts)%nat ∧
  Forall (λ c, isRouteShow c || isRouteAdd c = true) (issued sh sh').
Proof.
  intros Hrun hosts. unfold ensureInterHostRoutes in Hrun. fold hosts in Hrun.
  apply rangeHosts_ok in Hrun as (Hall & cs & Hcs & Hshow & Hadd & Honly).
  rewrite (issued_app sh sh' cs) by done. done.
Qed.

Lemma ensureInterHostRoutes_success_witness :
  let h := mkAgent (mkNetworkConfig "10.0.0.1"
                      [mkHost "192.168.0.12" "10.1.0.0/16" 9999 "HOST2000";
                       mkHost "192.168.0.13" "10.2.0.0/16" 9999 "HOST3000"] 16) 2 in
  let sh : Shell (list string) := mkShell ["10.2.0.0/16"] [] in
  ∃ sh', ensureInterHostRoutes ParseCIDRv4 h sh = (Ok (), sh') ∧
         countCalls isRouteShow (issued sh sh') = 2%nat ∧
         (countCalls isRouteAdd (issued sh sh') ≤ 2)%nat.
Proof.
  cbv zeta. eexists. split; [by vm_compute|].
  refine (let H := ensureInterHostRoutes_success ParseCIDRv4
            (mkAgent (mkNetworkConfig "10.0.0.1"
                        [mkHost "192.168.0.12" "10.1.0.0/16" 9999 "HOST2000";
                         mkHost "192.168.0.13" "10.2.0.0/16" 9999 "HOST3000"] 16) 2)
            (mkShell ["10.2.0.0/16"] []) _ _ in _).
  destruct H as (_ & Hshow & Hadd & _). split; [exact Hshow|exact Hadd].
  Unshelve. by vm_compute.
Defined.

(** X10.  A route creation that fails ends [ensureInterHostRoutes] at that
    peer: the call returns a route creation error carrying the error of the
    existence check (the error of the [ip ro add] itself is dropped), and
    nothing is sent to the shell for the peers listed after it. *)
Theorem ensureInterHostRoutes_stops_at_create_failure
    {W : Type} `{!Executor W} (ParseCIDR : string → option IPNet) (h : Agent)
    (before after : list Host) (host : Host) (romanaCidr : IPNet)
    (sh sh1 : Shell W) rq w1 qerr err2 w2 :
  let romanaMask := itoa (Mask_Size romanaCidr) in
  let show := showCmd (IPNet_IP romanaCidr) romanaMask in
  let add := addCmd (IPNet_IP romanaCidr) romanaMask "via" (Ip host) [] in
  otherHosts (networkConfig h) = before ++ host :: after →
  rangeHosts ParseCIDR before sh = (Ok (), sh1) →
  ParseCIDR (RomanaIp host) = Some romanaCidr →
  Exec show.1 show.2 (world sh1) = (rq, w1) →
  queryError show rq = Some qerr →
  Exec add.1 add.2 w1 = (Err err2, w2) →
  ensureInterHostRoutes ParseCIDR h sh =
    (Err (routeCreateError qerr (IPNet_IP romanaCidr) romanaMask (Ip host)),
     mkShell w2 (calls sh1 ++ [show; add])).
Proof.
  intros romanaMask show add Hhosts Hbefore Hparse Hshow Hq Hadd.
  unfold ensureInterHostRoutes. rewrite Hhosts, rangeHosts_app, Hbefore.
  destruct sh1 as [w cs]. cbn [world calls] in *.
  cbn [rangeHosts]. unfold_monad.
  pose proof (ensureInterHostRoute_run ParseCIDR host w cs) as Hcase.
  rewrite Hparse in Hcase. cbv zeta in Hcase.
  specialize (Hcase rq w1 Hshow). fold romanaMask show in Hcase.
  rewrite Hq in Hcase. specialize (Hcase (Err err2) w2 Hadd).
  by rewrite Hcase.
Qed.

Lemma ensureInterHostRoutes_stops_at_create_failure_witness :
  let h := mkAgent (mkNetworkConfig "10.0.0.1"
                      [mkHost "192.168.0.12" "10.1.0.0/16" 9999 "HOST2000";
                       mkHost "192.168.0.13" "10.2.0.0/16" 9999 "HOST3000"] 16) 2 in
  let down := osError "fork/exec: no such file or directory" in
  ensureInterHostRoutes ParseCIDRv4 h (mkShell broken []) =
    (Err (routeCreateError
            (shelloutError down "/sbin/ip" ["ro"; "show"; "10.1.0.0/16"])
            "10.1.0.0" "16" "192.168.0.12"),
     mkShell broken
       [showCmd "10.1.0.0" "16";
        addCmd "10.1.0.0" "16" "via" "192.168.0.12" []]).
Proof.
  cbv zeta.
  apply (ensureInterHostRoutes_stops_at_create_failure ParseCIDRv4 _ []
           [mkHost "192.168.0.13" "10.2.0.0/16" 9999 "HOST3000"]
           (mkHost "192.168.0.12" "10.1.0.0/16" 9999 "HOST2000")
           (mkIPNet "10.1.0.0" 16) (mkShell broken []) (mkShell broken [])
           (Err (osError "fork/exec: no such file or directory")) broken
           _ (osError "fork/exec: no such file or directory") broken).
  - reflexivity.
  - reflexivity.
  - by vm_compute.
  - by vm_compute.
  - by vm_compute.
  - by vm_compute.
Defined.

(** On the routing table a [show] answers whether the target has a route,
    and an [add] of a target that has none puts it in the table. *)
Lemma RouteTable_show target (table : list string) :
  Exec "/sbin/ip" ["ro"; "show"; target] table =
    (Ok (if bool_decide (target ∈ table) then b target ++ [NL] else []), table).
Proof. unfold Exec, RouteTable. simpl. by case_bool_decide. Qed.

Lemma RouteTable_add target via dest (table : list string) :
  target ∉ table →
  Exec "/sbin/ip" ["ro"; "add"; target; via; dest] table =
    (Ok [], table ++ [target]).
Proof.
  intros Hn. unfold Exec, RouteTable. simpl. by rewrite bool_decide_eq_false_2.
Qed.

Section RouteTableFacts.
Variable ParseCIDR : string → option IPNet.

Local Abbreviation routed := (hostRouted ParseCIDR).

Lemma RouteTable_host_ok host (table : list string) cs sh' :
  ensureInterHostRoute ParseCIDR host (mkShell table cs) = (Ok (), sh') →
  table ⊆ world sh' ∧ routed host (world sh').
Proof.
  intros Hrun.
  pose proof (ensureInterHostRoute_run ParseCIDR host table cs) as Hcase.
  destruct (ParseCIDR (RomanaIp host)) as [romanaCidr|] eqn:Hparse;
    [|by rewrite Hcase in Hrun].
  cbv zeta in Hcase. unfold showCmd, addCmd in Hcase. cbn [fst snd app] in Hcase.
  specialize (Hcase _ _ (RouteTable_show _ table)).
  case_bool_decide as Hin.
  - cbn [queryError] in Hcase.
    rewrite length_app, Nat.add_comm in Hcase. cbn [length Nat.add Nat.ltb Nat.leb] in Hcase.
    rewrite Hcase in Hrun. injection Hrun as <-. cbn [world].
    split; [done|]. exists romanaCidr. by split.
  - cbn [queryError length Nat.ltb Nat.leb] in Hcase.
    specialize (Hcase _ _ (RouteTable_add _ _ _ table Hin)).
    rewrite Hcase in Hrun. injection Hrun as <-. cbn [world].
    split; [by intros x Hx; apply elem_of_app; left|].
    exists romanaCidr. split; [done|].
    apply elem_of_app. right. by left.
Qed.

Lemma RouteTable_host_present host (table : list string) cs :
  routed host table →
  ∃ c, ensureInterHostRoute ParseCIDR host (mkShell table cs) =
         (Ok (), mkShell table (cs ++ [c])) ∧
       isRouteShow c = true ∧ isRouteAdd c = false.
Proof.
  intros (romanaCidr & Hparse & Hin).
  pose proof (ensureInterHostRoute_run ParseCIDR host table cs) as Hcase.
  rewrite Hparse in Hcase.
  cbv zeta in Hcase. unfold showCmd, addCmd in Hcase. cbn [fst snd app] in Hcase.
  specialize (Hcase _ _ (RouteTable_show _ table)).
  rewrite bool_decide_eq_true_2 in Hcase by done.
  cbn [queryError] in Hcase.
  rewrite length_app, Nat.add_comm in Hcase. cbn [length Nat.add Nat.ltb Nat.leb] in Hcase.
  eexists. split; [exact Hcase|]. done.
Qed.

Lemma RouteTable_rangeHosts_ok hosts : ∀ (table : list string) cs sh',
  rangeHosts ParseCIDR hosts (mkShell table cs) = (Ok (), sh') →
  table ⊆ world sh' ∧ Forall (λ host, routed host (world sh')) hosts.
Proof.
  induction hosts as [|host hosts IH]; intros table cs sh' Hrun.
  - injection Hrun as <-. split; [done|constructor].
  - simpl in Hrun. unfold_monad.
    destruct (ensureInterHostRoute ParseCIDR host (mkShell table cs))
      as [[[]|err] [table1 cs1]] eqn:Hone; [|done].
    apply RouteTable_host_ok in Hone as [Hsub (romanaCidr & Hparse & Hin)].
    cbn [world] in *.
    apply IH in Hrun as [Hsub' Hall].
    split; [by intros x Hx; apply Hsub', Hsub|]. constructor; [|done].
    exists romanaCidr. split; [done|]. by apply Hsub'.
Qed.

Lemma RouteTable_rangeHosts_present hosts : ∀ (table : list string) cs,
  Forall (λ host, routed host table) hosts →
  ∃ cs', rangeHosts ParseCIDR hosts (mkShell table cs) =
           (Ok (), mkShell table (cs ++ cs')) ∧
         countCalls isRouteShow cs' = length hosts ∧
         countCalls isRouteAdd cs' = 0%nat.
Proof.
  induction hosts as [|host hosts IH]; intros table cs Hall.
  - exists []. by rewrite app_nil_r.
  - apply Forall_cons in Hall as [Hhost Hall].
    destruct (RouteTable_host_present host table cs Hhost)
      as (c & Hone & Hs & Ha).
    destruct (IH table (cs ++ [c]) Hall) as (cs' & Hrest & Hshow & Hadd).
    exists (c :: cs'). split.
    { simpl. unfold_monad. rewrite Hone, Hrest. by rewrite <- app_assoc. }
    unfold countCalls in *. cbn [List.filter]. rewrite Hs, Ha. cbn [length].
    by rewrite Hshow, Hadd.
Qed.
End RouteTableFacts.

(** X11.  On a kernel routing table [ensureInterHostRoutes] is idempotent:
    right after a call that returned without error, a second call returns
    without error, sends one [ip ro show] for each peer and no [ip ro add],
    and leaves the table as it is. *)
Theorem ensureInterHostRoutes_twice
    (ParseCIDR : string → option IPNet) (h : Agent)
    (sh sh1 : Shell (list string)) :
  ensureInterHostRoutes ParseCIDR h sh = (Ok (), sh1) →
  ∃ sh2,
    ensureInterHostRoutes ParseCIDR h sh1 = (Ok (), sh2) ∧
    world sh2 = world sh1 ∧
    countCalls isRouteShow (issued sh1 sh2) =
      length (otherHosts (networkConfig h)) ∧
    countCalls isRouteAdd (issued sh1 sh2) = 0%nat.
Proof.
  unfold ensureInterHostRoutes. destruct sh as [table cs]. intros Hrun.
  apply RouteTable_rangeHosts_ok in Hrun as [_ Hall].
  destruct sh1 as [table1 cs1]. cbn [world] in *.
  destruct (RouteTable_rangeHosts_present ParseCIDR _ table1 cs1 Hall)
    as (cs' & Hrun2 & Hshow & Hadd).
  eexists. split; [exact Hrun2|]. split; [done|].
  rewrite (issued_app (mkShell table1 cs1) _ cs') by done. done.
Qed.

Lemma ensureInterHostRoutes_twice_witness :
  let h := mkAgent (mkNetworkConfig "10.0.0.1"
                      [mkHost "192.168.0.12" "10.1.0.0/16" 9999 "HOST2000";
                       mkHost "192.168.0.13" "10.2.0.0/16" 9999 "HOST3000"] 16) 2 in
  let sh1 : Shell (list string) :=
    mkShell ["10.1.0.0/16"; "10.2.0.0/16"]
      [showCmd "10.1.0.0" "16"; addCmd "10.1.0.0" "16" "via" "192.168.0.12" [];
       showCmd "10.2.0.0" "16"; addCmd "10.2.0.0" "16" "via" "192.168.0.13" []] in
  ∃ sh2,
    ensureInterHostRoutes ParseCIDRv4 h sh1 = (Ok (), sh2) ∧
    world sh2 = world sh1 ∧
    countCalls isRouteShow (issued sh1 sh2) = 2%nat ∧
    countCalls isRouteAdd (issued sh1 sh2) = 0%nat.
Proof.
  cbv zeta.
  apply (ensureInterHostRoutes_twice ParseCIDRv4
           (mkAgent (mkNetworkConfig "10.0.0.1"
                       [mkHost "192.168.0.12" "10.1.0.0/16" 9999 "HOST2000";
                        mkHost "192.168.0.13" "10.2.0.0/16" 9999 "HOST3000"] 16) 2)
           (mkShell [] [])).
  by vm_compute.
Defined.

(** ** Interface wait: further properties *)

Lemma waitForIface_from_result
    (net_Interfaces : nat → option (list string)) (h : Agent)
    (expectedIface : string) (fuel : nat) :
  waitForIfaceTry h < MaxInt →
  ∀ i p s b sys',
    0 <= i →
    waitForIface_from net_Interfaces h fuel expectedIface i (mkSys p s) =
      Some (b, sys') →
    ∃ a : nat,
      polled sys' = (p + a)%nat ∧
      (a ≤ Z.to_nat (waitForIfaceTry h + 1 - i))%nat ∧
      if b then
        (1 ≤ a)%nat ∧ (slept sys' + 1 = s + a)%nat ∧
        ifaceListed net_Interfaces expectedIface (p + a - 1) = true ∧
        ∀ j, (j + 1 < a)%nat →
             ifaceListed net_Interfaces expectedIface (p + j) = false
      else
        a = Z.to_nat (waitForIfaceTry h + 1 - i) ∧ slept sys' = (s + a)%nat ∧
        ∀ j, (j < a)%nat →
             ifaceListed net_Interfaces expectedIface (p + j) = false.
Proof.
  intros Htry. induction fuel as [|fuel IH]; intros i p s b sys' Hi Hrun;
    [done|].
  simpl in Hrun. destruct (Z.leb_spec i (waitForIfaceTry h)) as [Hle|Hgt].
  - fold (ifaceListed net_Interfaces expectedIface p) in Hrun.
    destruct (ifaceListed net_Interfaces expectedIface p) eqn:Hp.
    + injection Hrun as <- <-. exists 1%nat. cbn [polled slept].
      split; [lia|]. split; [lia|]. split; [lia|]. split; [lia|].
      split; [|intros j Hj; lia].
      by replace (p + 1 - 1)%nat with p by lia.
    + rewrite wrapInt_id in Hrun by (unfold MaxInt in Htry; lia).
      apply IH in Hrun as (a & Hpol & Hbound & Hres); [|lia].
      exists (S a). split; [lia|]. split; [lia|].
      destruct b.
      * destruct Hres as (Ha & Hs & Hyes & Hno).
        split; [lia|]. split; [lia|]. split.
        { by replace (p + S a - 1)%nat with (S p + a - 1)%nat by lia. }
        intros [|j] Hj; [by rewrite Nat.add_0_r|].
        replace (p + S j)%nat with (S p + j)%nat by lia. apply Hno. lia.
      * destruct Hres as (Ha & Hs & Hno).
        split; [lia|]. split; [lia|].
        intros [|j] Hj; [by rewrite Nat.add_0_r|].
        replace (p + S j)%nat with (S p + j)%nat by lia. apply Hno. lia.
  - injection Hrun as <- <-. exists 0%nat. cbn [polled slept].
    split; [lia|]. split; [lia|]. split; [lia|]. split; [lia|].
    intros j Hj. lia.
Qed.

(** X12.  For [waitForIfaceTry] below the largest [int], whatever
    [waitForIface] returns is justified by its polls: true only when its
    last poll listed the interface and no earlier one did, with a sleep
    after every poll but the last; false only when it polled
    [waitForIfaceTry + 1] times (not at all for a negative
    [waitForIfaceTry]), none listing the interface, and slept after each.
    It never polls more than [waitForIfaceTry + 1] times. *)
Theorem waitForIface_result
    (net_Interfaces : nat → option (list string)) (h : Agent)
    (expectedIface : string) (fuel : nat) (result : bool) (sys' : Sys) :
  waitForIfaceTry h < MaxInt →
  waitForIface net_Interfaces h fuel expectedIface (mkSys 0 0) =
    Some (result, sys') →
  let n := Z.to_nat (waitForIfaceTry h + 1) in
  (polled sys' ≤ n)%nat ∧
  if result then
    (1 ≤ polled sys')%nat ∧ (slept sys' + 1 = polled sys')%nat ∧
    ifaceListed net_Interfaces expectedIface (polled sys' - 1) = true ∧
    ∀ j, (j + 1 < polled sys')%nat →
         ifaceListed net_Interfaces expectedIface j = false
  else
    polled sys' = n ∧ slept sys' = n ∧
    ∀ j, (j < n)%nat → ifaceListed net_Interfaces expectedIface j = false.
Proof.
  intros Htry Hrun n. unfold waitForIface in Hrun.
  apply waitForIface_from_result in Hrun as (a & Hpol & Hbound & Hres);
    [|done|lia].
  rewrite Z.sub_0_r in Hbound, Hres. fold n in Hbound, Hres.
  cbn [Nat.add] in *. rewrite Hpol. split; [done|].
  destruct result.
  - destruct Hres as (Ha & Hs & Hyes & Hno). done.
  - destruct Hres as (-> & Hs & Hno). done.
Qed.

Lemma waitForIface_result_witness :
  let h := mkAgent (mkNetworkConfig "10.0.0.1" [] 16) 2 in
  let late (k : nat) :=
    if (k <? 1)%nat then Some ["lo"] else Some ["lo"; "veth0"] in
  ifaceListed late "veth0" 1 = true ∧ ifaceListed late "veth0" 0 = false.
Proof.
  cbv zeta.
  pose proof (waitForIface_result
                (λ k : nat, if (k <? 1)%nat then Some ["lo"]
                            else Some ["lo"; "veth0"])
                (mkAgent (mkNetworkConfig "10.0.0.1" [] 16) 2) "veth0" 5 true
                (mkSys 2 1)) as Hres.
  destruct Hres as (_ & _ & _ & Hyes & Hno).
  - by vm_compute.
  - by vm_compute.
  - split; [exact Hyes|]. apply (Hno 0%nat). cbn [polled]. lia.
Defined.

Lemma waitForIface_MaxInt_no_return_witness :
  waitForIface (λ _, None) (mkAgent (mkNetworkConfig "10.0.0.1" [] 16) MaxInt)
    7 "veth0" (mkSys 0 0) = None.
Proof.
  apply (waitForIface_MaxInt_no_return (λ _, None)
           (mkAgent (mkNetworkConfig "10.0.0.1" [] 16) MaxInt) "veth0").
  - reflexivity.
  - intros k. reflexivity.
Defined.

(** ** [DhcpPid]: properties *)

Lemma TrimLeft_length cutset s : (length (TrimLeft cutset s) ≤ length s)%nat.
Proof.
  induction s as [|c s IH]; simpl; [lia|].
  destruct (inCutset cutset c); simpl; lia.
Qed.

Lemma TrimLeft_pad cutset pad s :
  Forall (λ c, inCutset cutset c = true) pad →
  TrimLeft cutset (pad ++ s) = TrimLeft cutset s.
Proof. induction 1 as [|c pad Hc _ IH]; [done|]. simpl. by rewrite Hc. Qed.

Lemma TrimLeft_fix_app cutset core s :
  core ≠ [] → TrimLeft cutset core = core →
  TrimLeft cutset (core ++ s) = core ++ s.
Proof.
  destruct core as [|c core]; [done|]. intros _ Hfix. simpl in *.
  destruct (inCutset cutset c); [|done].
  pose proof (TrimLeft_length cutset core) as Hlen. rewrite Hfix in Hlen.
  simpl in Hlen. lia.
Qed.

Lemma Trim_padded cutset pad1 core pad2 :
  Forall (λ c, inCutset cutset c = true) pad1 →
  Forall (λ c, inCutset cutset c = true) pad2 →
  core ≠ [] → TrimLeft cutset core = core →
  TrimLeft cutset (rev core) = rev core →
  Trim cutset (pad1 ++ core ++ pad2) = core.
Proof.
  intros Hp1 Hp2 Hne Hl Hr. unfold Trim, TrimRight.
  rewrite TrimLeft_pad, TrimLeft_fix_app by done.
  rewrite rev_app_distr, TrimLeft_pad.
  - by rewrite Hr, rev_involutive.
  - apply Forall_forall. intros c Hc. apply list_elem_of_In, in_rev in Hc.
    apply list_elem_of_In in Hc. by eapply Forall_forall in Hp2.
Qed.

Lemma isPad_inCutset c : isPad c → inCutset (b " " ++ [NL]) c = true.
Proof. by intros [-> | ->]. Qed.



(** With an error, [Atoi] returns 0 or an end of the 64-bit range. *)
Lemma Atoi_error_value s v err :
  Atoi s = (v, Some err) → v = 0 ∨ v = 2 ^ 63 - 1 ∨ v = - 2 ^ 63.
Proof.
  unfold Atoi.
  destruct (match s with
            | [] => (false, s)
            | c :: s' => if Ascii.eqb c "+" then (false, s')
                         else if Ascii.eqb c "-" then (true, s') else (false, s)
            end) as [neg body].
  destruct body as [|c body]; [intros [= <- _]; by left|].
  destruct (parseDigits 0 (c :: body)) as [un|]; [|intros [= <- _]; by left].
  destruct neg.
  - destruct (2 ^ 63 <? un); [intros [= <- _]; by right; right|done].
  - destruct (2 ^ 63 <=? un); [intros [= <- _]; by right; left|done].
Qed.

Section DhcpPidFacts.
Context {W : Type} `{!Executor W}.

Lemma DhcpPid_run (w : W) cs r w' :
  Exec psCmd.1 psCmd.2 w = (r, w') →
  DhcpPid (mkShell w cs) =
    (match r with
     | Err err =>
         (-1, Some (pidShelloutError (Some (execFailed err)) psCmd.1 psCmd.2))
     | Ok out =>
         let '(pid, err) := Atoi (Trim (b " " ++ [NL]) out) in
         if (65535 <? pid) || (pid <? 1) ||
            match err with Some _ => true | None => false end
         then (pid, Some (pidShelloutError (atoiFailed <$> err) psCmd.1 psCmd.2))
         else (pid, None)
     end,
     mkShell w' (cs ++ [psCmd])).
Proof.
  intros HE. unfold DhcpPid, psCmd in *. cbn [fst snd] in *.
  rewrite (exec_run _ _ _ _ _ _ HE). destruct r as [out|err]; [|done].
  destruct (Atoi _) as [pid err]. by destruct (_ || _ || _).
Qed.
End DhcpPidFacts.

(** X14.  [DhcpPid] sends one [ps] command, and returns a nil error exactly
    when the pid it returns is between 1 and 65535: with an error the pid
    is -1 (the command failed), 0 or an end of the [int] range (the output
    is not a number), or a number out of that range. *)
Theorem DhcpPid_error_iff_range
    {W : Type} `{!Executor W} (sh sh' : Shell W) (pid : Z)
    (err : option pidError) :
  DhcpPid sh = ((pid, err), sh') →
  issued sh sh' = [psCmd] ∧ (err = None ↔ 1 <= pid <= 65535).
Proof.
  destruct sh as [w cs].
  destruct (Exec psCmd.1 psCmd.2 w) as [r w'] eqn:HE.
  rewrite (DhcpPid_run _ _ _ _ HE). intros Hrun.
  injection Hrun as Hres <-.
  split; [by apply issued_app|].
  destruct r as [out|e].
  - destruct (Atoi (Trim _ out)) as [v [ne|]] eqn:HA;
      cbv beta iota zeta in Hres.
    + rewrite orb_true_r in Hres. injection Hres as <- <-.
      apply Atoi_error_value in HA. split; [done|]. lia.
    + rewrite orb_false_r in Hres.
      destruct (Z.ltb_spec 65535 v); destruct (Z.ltb_spec v 1);
        cbn [orb] in Hres; injection Hres as <- <-; split; (done || lia).
  - injection Hres as <- <-. split; [done|lia].
Qed.

Lemma DhcpPid_error_iff_range_witness :
  ∃ sh' : Shell Broken,
    DhcpPid (mkShell broken []) =
      ((-1, Some (pidShelloutError
                    (Some (execFailed
                             (osError "fork/exec: no such file or directory")))
                    "ps" ["-C"; "dnsmasq-calico"; "-o"; "pid"; "--no-headers"])),
       sh') ∧
    issued (mkShell broken []) sh' = [psCmd].
Proof.
  eexists. split; [by vm_compute|].
  eapply (DhcpPid_error_iff_range (mkShell broken [])). by vm_compute.
Defined.

Lemma parseDigits_acc d : ∀ acc,
  parseDigits (Z.pos acc) (uint_chars d) = Some (Z.pos (Pos.of_uint_acc d acc)).
Proof.
  unfold uint_chars.
  induction d as [|d IH|d IH|d IH|d IH|d IH|d IH|d IH|d IH|d IH|d IH];
    intros acc; [done|..];
    cbn [NilEmpty.string_of_uint list_ascii_of_string parseDigits];
    (etrans; [|apply IH]); cbn [Pos.of_uint_acc]; cbv [digitVal];
    cbn [nat_of_ascii]; simpl; f_equal;
    match goal with
    | |- context [Z.of_nat (nat_of_ascii ?c)] =>
        let v := eval vm_compute in (Z.of_nat (nat_of_ascii c)) in
        change (Z.of_nat (nat_of_ascii c)) with v
    end; lia.
Qed.

Lemma parseDigits_uint d :
  parseDigits 0 (uint_chars d) = Some (Z.of_N (Pos.of_uint d)).
Proof.
  induction d as [|d IH|d IH|d IH|d IH|d IH|d IH|d IH|d IH|d IH|d IH];
    [done|exact IH|..]; exact (parseDigits_acc d _).
Qed.

Lemma uint_chars_digits d : Forall (λ c, is_Some (digitVal c)) (uint_chars d).
Proof.
  unfold uint_chars.
  induction d as [|d IH|d IH|d IH|d IH|d IH|d IH|d IH|d IH|d IH|d IH];
    [constructor|..];
    (constructor; [by eexists|exact IH]).
Qed.

Lemma itoa_chars p : b (itoa (Z.pos p)) = uint_chars (Pos.to_uint p).
Proof.
  unfold b, itoa, uint_chars. cbn [Z.to_int NilZero.string_of_int].
  unfold NilZero.string_of_uint.
  pose proof (DecimalPos.Unsigned.to_uint_nonnil p) as Hnn.
  by destruct (Pos.to_uint p).
Qed.

Lemma itoa_nonempty p : b (itoa (Z.pos p)) ≠ [].
Proof.
  rewrite itoa_chars.
  pose proof (DecimalPos.Unsigned.to_uint_nonnil p) as Hnn.
  by destruct (Pos.to_uint p).
Qed.

(** A digit is neither a sign nor a byte that is trimmed. *)
Lemma digit_plain c :
  is_Some (digitVal c) →
  inCutset (b " " ++ [NL]) c = false ∧ c ≠ "+"%char ∧ c ≠ "-"%char.
Proof.
  intros [d Hd]. split; [|split].
  - destruct (inCutset _ c) eqn:E; [|done]. unfold inCutset in E.
    apply existsb_exists in E as (x & Hx & Heq). apply Ascii.eqb_eq in Heq as <-.
    cbn in Hx. destruct Hx as [<-|[<-|[]]]; by vm_compute in Hd.
  - intros ->. by vm_compute in Hd.
  - intros ->. by vm_compute in Hd.
Qed.

Lemma TrimLeft_digits core :
  Forall (λ c, is_Some (digitVal c)) core →
  TrimLeft (b " " ++ [NL]) core = core.
Proof.
  destruct 1 as [|c core Hc _]; [done|]. cbn [TrimLeft].
  by rewrite (proj1 (digit_plain c Hc)).
Qed.

Lemma Atoi_itoa v : 0 < v < 2 ^ 63 → Atoi (b (itoa v)) = (v, None).
Proof.
  intros Hv. destruct v as [|p|p]; [lia| |lia].
  pose proof (itoa_nonempty p) as Hne.
  pose proof (uint_chars_digits (Pos.to_uint p)) as Hd.
  pose proof (parseDigits_uint (Pos.to_uint p)) as Hp.
  rewrite DecimalPos.Unsigned.of_to in Hp.
  rewrite itoa_chars in *. unfold Atoi.
  destruct (uint_chars (Pos.to_uint p)) as [|c s] eqn:E; [done|].
  apply Forall_cons in Hd as [Hc _].
  destruct (digit_plain c Hc) as (_ & Hplus & Hminus).
  rewrite (proj2 (Ascii.eqb_neq _ _)), (proj2 (Ascii.eqb_neq _ _)) by done.
  rewrite Hp. by rewrite (proj2 (Z.leb_gt _ _)) by lia.
Qed.

(** X15.  When [ps] prints a pid between 1 and 65535 in decimal, with
    spaces and newlines around it, [DhcpPid] returns that pid and no
    error. *)
Theorem DhcpPid_reads_pid
    {W : Type} `{!Executor W} (w w' : W) cs (v : Z) (pad1 pad2 : bytes) :
  1 <= v <= 65535 →
  Forall isPad pad1 → Forall isPad pad2 →
  Exec psCmd.1 psCmd.2 w = (Ok (pad1 ++ b (itoa v) ++ pad2), w') →
  DhcpPid (mkShell w cs) = ((v, None), mkShell w' (cs ++ [psCmd])).
Proof.
  intros Hv Hp1 Hp2 HE. rewrite (DhcpPid_run _ _ _ _ HE).
  destruct v as [|p|p]; [lia| |lia].
  pose proof (uint_chars_digits (Pos.to_uint p)) as Hd.
  rewrite <- itoa_chars in Hd.
  rewrite Trim_padded, Atoi_itoa.
  - cbv beta iota zeta. rewrite orb_false_r.
    by rewrite (proj2 (Z.ltb_ge _ _)), (proj2 (Z.ltb_ge _ _)) by lia.
  - lia.
  - eapply Forall_impl; [exact Hp1|]. apply isPad_inCutset.
  - eapply Forall_impl; [exact Hp2|]. apply isPad_inCutset.
  - apply itoa_nonempty.
  - by apply TrimLeft_digits.
  - apply TrimLeft_digits. apply Forall_forall. intros c Hc.
    apply list_elem_of_In, in_rev, list_elem_of_In in Hc.
    by eapply Forall_forall in Hd.
Qed.

Lemma DhcpPid_reads_pid_witness :
  let w := mkPsHost (b " 1234" ++ [NL]) in
  DhcpPid (mkShell w []) = ((1234, None), mkShell w [psCmd]).
Proof.
  cbv zeta.
  apply (DhcpPid_reads_pid (mkPsHost (b " 1234" ++ [NL])) _ [] 1234
           (b " ") [NL]).
  - lia.
  - constructor; [by left|constructor].
  - constructor; [by right|constructor].
  - reflexivity.
Defined.



(** ** The retry loop of [execMethod]: properties *)

Lemma fib_SS n : fib (S (S n)) = fib n + fib (S n).
Proof. unfold fib. simpl. by destruct (fib_pair n). Qed.

Lemma fib_pos n : 0 <= fib n ∧ 0 < fib (S n).
Proof.
  induction n as [|n [IH0 IH1]]; [by vm_compute|].
  split; [lia|]. rewrite fib_SS. lia.
Qed.

Lemma fib_mono n m : (n ≤ m)%nat → fib n <= fib m.
Proof.
  induction 1 as [|m _ IH]; [lia|].
  etrans; [exact IH|]. destruct m as [|m]; [by vm_compute|].
  rewrite fib_SS. pose proof (fib_pos m). lia.
Qed.

Section RetryFacts.
Variable RestRetryStrategyExponential : string.
Variable exponentialSleep : Z → Z.
Variable client_Do : nat → result Response.
Variable config : RestClientConfig.

Local Abbreviation retry_from' newRequest :=
  (retry_from RestRetryStrategyExponential exponentialSleep newRequest
     client_Do config).

(** Calls and sleeps go in step: a sleep before every call but the one of
    the turn with [i = 0]. *)
Lemma retry_from_counts newRequest turns : ∀ i s p resp err net out net',
  0 <= i →
  retry_from' newRequest turns i s p resp err net = (out, net') →
  (tried net ≤ tried net')%nat ∧ (tried net' ≤ tried net + turns)%nat ∧
  ∃ added,
    naps net' = naps net ++ added ∧
    length added = if 0 <? i then (tried net' - tried net)%nat
                   else (tried net' - tried net - 1)%nat.
Proof.
  induction turns as [|turns IH]; intros i s p resp err net out net' Hi Hrun.
  - injection Hrun as _ <-. split; [lia|]. split; [lia|].
    exists []. rewrite app_nil_r. split; [done|]. destruct (0 <? i); simpl; lia.
  - simpl in Hrun. destruct newRequest as [e|].
    { injection Hrun as _ <-. split; [lia|]. split; [lia|].
      exists []. rewrite app_nil_r. split; [done|].
      destruct (0 <? i); simpl; lia. }
    destruct (Z.ltb_spec 0 i) as [Hpos|Hzero].
    + destruct (nextSleep _ _ _ _ _ _) as [st pst]. cbn [tried naps] in Hrun.
      destruct (client_Do (tried net)) as [r|e].
      * destruct (negb _).
        { injection Hrun as _ <-. cbn [tried naps].
          split; [lia|]. split; [lia|]. exists [st]. split; [done|].
          simpl. lia. }
        apply IH in Hrun as (H1 & H2 & added & Hn & Hl); [|lia].
        cbn [tried naps] in *. split; [lia|]. split; [lia|].
        exists (st :: added). split; [by rewrite Hn, <- app_assoc|].
        rewrite (proj2 (Z.ltb_lt _ _)) in Hl by lia. simpl. lia.
      * destruct (i =? Retries config - 1).
        { injection Hrun as _ <-. cbn [tried naps].
          split; [lia|]. split; [lia|]. exists [st]. split; [done|].
          simpl. lia. }
        apply IH in Hrun as (H1 & H2 & added & Hn & Hl); [|lia].
        cbn [tried naps] in *. split; [lia|]. split; [lia|].
        exists (st :: added). split; [by rewrite Hn, <- app_assoc|].
        rewrite (proj2 (Z.ltb_lt _ _)) in Hl by lia. simpl. lia.
    + destruct (client_Do (tried net)) as [r|e].
      * destruct (negb _).
        { injection Hrun as _ <-. cbn [tried naps].
          split; [lia|]. split; [lia|]. exists []. rewrite app_nil_r.
          split; [done|]. simpl. lia. }
        apply IH in Hrun as (H1 & H2 & added & Hn & Hl); [|lia].
        cbn [tried naps] in *. split; [lia|]. split; [lia|].
        exists added. split; [done|].
        rewrite (proj2 (Z.ltb_lt _ _)) in Hl by lia. lia.
      * destruct (i =? Retries config - 1).
        { injection Hrun as _ <-. cbn [tried naps].
          split; [lia|]. split; [lia|]. exists []. rewrite app_nil_r.
          split; [done|]. simpl. lia. }
        apply IH in Hrun as (H1 & H2 & added & Hn & Hl); [|lia].
        cbn [tried naps] in *. split; [lia|]. split; [lia|].
        exists added. split; [done|].
        rewrite (proj2 (Z.ltb_lt _ _)) in Hl by lia. lia.
Qed.

(** One turn of the loop, the request being built. *)
Lemma retry_from_turn turns i s p resp err net :
  retry_from' None (S turns) i s p resp err net =
    let '(sleepTime, prevSleepTime, net) :=
      if 0 <? i then
        let '(st, pst) :=
          nextSleep RestRetryStrategyExponential exponentialSleep config i s p in
        (st, pst, mkNet (tried net) (naps net ++ [st]))
      else (s, p, net) in
    match client_Do (tried net) with
    | Err e =>
        let net := mkNet (S (tried net)) (naps net) in
        if i =? Retries config - 1 then (retryError e, net)
        else retry_from' None turns (i + 1) sleepTime prevSleepTime
               None (Some e) net
    | Ok r =>
        let net := mkNet (S (tried net)) (naps net) in
        if negb (StatusCode r =? StatusServiceUnavailable)
        then (afterLoop (Some r) None, net)
        else retry_from' None turns (i + 1) sleepTime prevSleepTime
               (Some r) None net
    end.
Proof. reflexivity. Qed.

(** The first try that is neither an error nor a 503 ends the loop. *)
Lemma retry_from_decisive k : ∀ turns i s p resp err net r,
  (k < turns)%nat → Z.of_nat turns = Retries config - i →
  (∀ j, (j < k)%nat → retried (client_Do (tried net + j))) →
  client_Do (tried net + k) = Ok r →
  StatusCode r ≠ StatusServiceUnavailable →
  ∃ net', retry_from' None turns i s p resp err net = (retryResponse r, net') ∧
          tried net' = (tried net + k + 1)%nat.
Proof.
  induction k as [|k IH]; intros turns i s p resp err net r Hk Hturns
    Hbefore Hdo Hstatus;
    (destruct turns as [|turns]; [lia|]); rewrite retry_from_turn.
  - destruct (if 0 <? i then _ else _) as [[st pst] net1] eqn:Hnap.
    assert (Ht : tried net1 = tried net).
    { destruct (0 <? i); [destruct (nextSleep _ _ _ _ _ _)|];
        by injection Hnap as _ _ <-. }
    rewrite Ht. rewrite Nat.add_0_r in Hdo. rewrite Hdo.
    rewrite (proj2 (Z.eqb_neq (StatusCode r) StatusServiceUnavailable)) by done.
    cbn [negb afterLoop].
    eexists. split; [done|]. cbn [tried]. lia.
  - destruct (if 0 <? i then _ else _) as [[st pst] net1] eqn:Hnap.
    assert (Ht : tried net1 = tried net).
    { destruct (0 <? i); [destruct (nextSleep _ _ _ _ _ _)|];
        by injection Hnap as _ _ <-. }
    rewrite Ht. pose proof (Hbefore 0%nat ltac:(lia)) as H0.
    rewrite Nat.add_0_r in H0.
    assert (Hnext : ∀ resp1 err1,
      ∃ net', retry_from' None turns (i + 1) st pst resp1 err1
                (mkNet (S (tried net)) (naps net1)) = (retryResponse r, net') ∧
              tried net' = (tried net + S k + 1)%nat).
    { intros resp1 err1.
      destruct (IH turns (i + 1) st pst resp1 err1
                  (mkNet (S (tried net)) (naps net1)) r) as (net' & Hrun & Hn);
        try done; try lia.
      - intros j Hj. cbn [tried].
        replace (S (tried net) + j)%nat with (tried net + S j)%nat by lia.
        apply Hbefore. lia.
      - cbn [tried].
        by replace (S (tried net) + k)%nat with (tried net + S k)%nat by lia.
      - exists net'. split; [done|]. cbn [tried] in Hn. lia. }
    destruct (client_Do (tried net)) as [r0|e0]; cbn [retried] in H0.
    + rewrite H0, Z.eqb_refl. cbn [negb]. apply Hnext.
    + rewrite (proj2 (Z.eqb_neq i (Retries config - 1))) by lia. apply Hnext.
Qed.

(** When every try but the last is an error or a 503, the last try
    decides. *)
Lemma retry_from_exhaust turns : ∀ i s p resp err net,
  Z.of_nat (S turns) = Retries config - i →
  (∀ j, (j < turns)%nat → retried (client_Do (tried net + j))) →
  ∃ net', retry_from' None (S turns) i s p resp err net =
            (match client_Do (tried net + turns) with
             | Err e => retryError e
             | Ok r => retryResponse r
             end, net') ∧
          tried net' = (tried net + turns + 1)%nat.
Proof.
  induction turns as [|turns IH]; intros i s p resp err net Hturns Hbefore;
    rewrite retry_from_turn.
  - destruct (if 0 <? i then _ else _) as [[st pst] net1] eqn:Hnap.
    assert (Ht : tried net1 = tried net).
    { destruct (0 <? i); [destruct (nextSleep _ _ _ _ _ _)|];
        by injection Hnap as _ _ <-. }
    rewrite Ht, Nat.add_0_r.
    destruct (client_Do (tried net)) as [r|e].
    + destruct (negb _); (eexists; split; [done|]; cbn [tried]; lia).
    + rewrite (proj2 (Z.eqb_eq i (Retries config - 1))) by lia.
      eexists; split; [done|]; cbn [tried]; lia.
  - destruct (if 0 <? i then _ else _) as [[st pst] net1] eqn:Hnap.
    assert (Ht : tried net1 = tried net).
    { destruct (0 <? i); [destruct (nextSleep _ _ _ _ _ _)|];
        by injection Hnap as _ _ <-. }
    rewrite Ht. pose proof (Hbefore 0%nat ltac:(lia)) as H0.
    rewrite Nat.add_0_r in H0.
    assert (Hnext : ∀ resp1 err1,
      ∃ net', retry_from' None (S turns) (i + 1) st pst resp1 err1
                (mkNet (S (tried net)) (naps net1)) =
                (match client_Do (tried net + S turns) with
                 | Err e => retryError e
                 | Ok r => retryResponse r
                 end, net') ∧
              tried net' = (tried net + S turns + 1)%nat).
    { intros resp1 err1.
      destruct (IH (i + 1) st pst resp1 err1
                  (mkNet (S (tried net)) (naps net1))) as (net' & Hrun & Hn);
        try done; try lia.
      - intros j Hj. cbn [tried].
        replace (S (tried net) + j)%nat with (tried net + S j)%nat by lia.
        apply Hbefore. lia.
      - cbn [tried] in *.
        replace (S (tried net) + turns)%nat
          with (tried net + S turns)%nat in Hrun by lia.
        exists net'. split; [done|]. lia. }
    destruct (client_Do (tried net)) as [r0|e0]; cbn [retried] in H0.
    + rewrite H0, Z.eqb_refl. cbn [negb]. apply Hnext.
    + rewrite (proj2 (Z.eqb_neq i (Retries config - 1))) by lia. apply Hnext.
Qed.
End RetryFacts.

Section RetryNaps.
Variable RestRetryStrategyExponential : string.
Variable exponentialSleep : Z → Z.
Variable client_Do : nat → result Response.
Variable config : RestClientConfig.
Hypothesis Hfib :
  String.eqb (RetryStrategy config) RestRetryStrategyExponential = false.

(** With the Fibonacci strategy the turn with [i = k] sleeps
    [100ms * fib k], as long as that fits a duration. *)
Lemma retry_from_fib_naps newRequest turns :
  ∀ (k : nat) s p resp err net out net',
  (1 ≤ k)%nat → (k + turns ≤ 55)%nat →
  s = 100 * Millisecond * fib (k - 1) →
  p = 100 * Millisecond * fib (k - 2) →
  retry_from RestRetryStrategyExponential exponentialSleep newRequest
    client_Do config turns (Z.of_nat k) s p resp err net = (out, net') →
  naps net' =
    naps net ++
    ((λ j, 100 * Millisecond * fib j) <$> seq k (tried net' - tried net)).
Proof.
  induction turns as [|turns IH];
    intros k s p resp err net out net' Hk Hbound Hs Hp Hrun.
  - injection Hrun as _ <-. by rewrite Nat.sub_diag, app_nil_r.
  - simpl in Hrun. destruct newRequest as [e|].
    { injection Hrun as _ <-. by rewrite Nat.sub_diag, app_nil_r. }
    rewrite (proj2 (Z.ltb_lt 0 (Z.of_nat k))) in Hrun by lia.
    assert (Hnext : nextSleep RestRetryStrategyExponential exponentialSleep
                      config (Z.of_nat k) s p =
                    (100 * Millisecond * fib k,
                     100 * Millisecond * fib (k - 1))).
    { unfold nextSleep. rewrite Hfib, Hs, Hp.
      destruct k as [|[|k]]; [lia|by vm_compute|].
      replace (S (S k) - 1)%nat with (S k) by lia.
      replace (S (S k) - 2)%nat with k by lia.
      pose proof (fib_pos k) as [H0 H1].
      rewrite (proj2 (Z.eqb_neq _ 0)) by (unfold Millisecond; lia).
      rewrite wrapInt_id.
      - rewrite fib_SS. unfold Millisecond. f_equal. lia.
      - pose proof (fib_mono (S (S k)) 54 ltac:(lia)) as Hm.
        rewrite fib_SS in Hm.
        assert (fib 54 = 86267571272) as E by (by vm_compute).
        unfold Millisecond. lia. }
    rewrite Hnext in Hrun. cbn [tried naps] in Hrun.
    replace (Z.of_nat k + 1) with (Z.of_nat (S k)) in Hrun by lia.
    assert (Hstep : ∀ resp1 err1,
      retry_from RestRetryStrategyExponential exponentialSleep None client_Do
        config turns (Z.of_nat (S k))
        (100 * Millisecond * fib k) (100 * Millisecond * fib (k - 1))
        resp1 err1
        (mkNet (S (tried net)) (naps net ++ [100 * Millisecond * fib k])) =
        (out, net') →
      naps net' =
        naps net ++
        ((λ j, 100 * Millisecond * fib j) <$> seq k (tried net' - tried net))).
    { intros resp1 err1 Hrec.
      pose proof Hrec as Hc.
      apply retry_from_counts in Hc as (Hle & _); [|lia].
      apply IH in Hrec; [|lia|lia|do 2 f_equal; lia|do 2 f_equal; lia].
      cbn [tried naps] in *.
      rewrite Hrec, <- app_assoc. f_equal.
      replace (tried net' - tried net)%nat
        with (S (tried net' - S (tried net))) by lia.
      done. }
    destruct (client_Do (tried net)) as [r|e].
    + destruct (negb _).
      * injection Hrun as _ <-. cbn [tried naps].
        by replace (S (tried net) - tried net)%nat with 1%nat by lia.
      * by eapply Hstep.
    + destruct (Z.of_nat k =? Retries config - 1).
      * injection Hrun as _ <-. cbn [tried naps].
        by replace (S (tried net) - tried net)%nat with 1%nat by lia.
      * by eapply Hstep.
Qed.
End RetryNaps.

(** X17.  The retry loop of [execMethod] calls [rc.client.Do] at most
    [Retries] times (not at all when [Retries] is not positive, where no
    response is left to read), and sleeps once before every call but the
    first. *)
Theorem execMethod_retry_bounded
    (RestRetryStrategyExponential : string) (exponentialSleep : Z → Z)
    (newRequest : option error) (client_Do : nat → result Response)
    (config : RestClientConfig) (net net' : Net) (out : retryEnd) :
  execMethod_retry RestRetryStrategyExponential exponentialSleep newRequest
    client_Do config net = (out, net') →
  (tried net ≤ tried net')%nat ∧
  (tried net' ≤ tried net + Z.to_nat (Retries config))%nat ∧
  (∃ added, naps net' = naps net ++ added ∧
            length added = (tried net' - tried net - 1)%nat) ∧
  (Retries config <= 0 → out = retryNilResponse ∧ net' = net).
Proof.
  unfold execMethod_retry. intros Hrun. pose proof Hrun as Hc.
  apply retry_from_counts in Hc as (H1 & H2 & added & Hn & Hl); [|lia].
  split; [done|]. split; [done|]. split; [by exists added|].
  intros Hle. replace (Z.to_nat (Retries config)) with 0%nat in Hrun by lia.
  by injection Hrun as <- <-.
Qed.

Lemma execMethod_retry_bounded_witness :
  let down := osError "connection refused" in
  execMethod_retry "exponential" (λ i, 100 * Millisecond * 2 ^ (i - 1)) None
    (λ _, Err down) (mkRestClientConfig 3 "exponential") (mkNet 0 []) =
    (retryError down, mkNet 3 [100 * Millisecond; 200 * Millisecond]) ∧
  (3 ≤ 0 + Z.to_nat 3)%nat.
Proof.
  cbv zeta. split; [by vm_compute|].
  refine (proj1 (proj2 (execMethod_retry_bounded "exponential"
            (λ i, 100 * Millisecond * 2 ^ (i - 1)) None
            (λ _, Err (osError "connection refused"))
            (mkRestClientConfig 3 "exponential") (mkNet 0 []) (mkNet 3 _) _ _))).
  by vm_compute.
Defined.

(** X18.  The loop ends at the first response whose status is not 503,
    when the tries before it were errors or 503 responses: that response
    is the one [execMethod] goes on to read, and no further request is
    sent. *)
Theorem execMethod_retry_first_response
    (RestRetryStrategyExponential : string) (exponentialSleep : Z → Z)
    (client_Do : nat → result Response) (config : RestClientConfig)
    (net : Net) (k : nat) (r : Response) :
  Z.of_nat k < Retries config →
  (∀ j, (j < k)%nat → retried (client_Do (tried net + j)%nat)) →
  client_Do (tried net + k)%nat = Ok r →
  StatusCode r ≠ StatusServiceUnavailable →
  ∃ net',
    execMethod_retry RestRetryStrategyExponential exponentialSleep None
      client_Do config net = (retryResponse r, net') ∧
    tried net' = (tried net + k + 1)%nat.
Proof.
  intros Hk Hbefore Hdo Hstatus. unfold execMethod_retry.
  apply retry_from_decisive; try done; lia.
Qed.

Lemma execMethod_retry_first_response_witness :
  let busy := mkResponse 503 [] in
  let ok := mkResponse 200 (b "{}") in
  let server (k : nat) :=
    match k with
    | 0%nat => Err (osError "connection refused")
    | 1%nat => Ok busy
    | _ => Ok ok
    end in
  ∃ net',
    execMethod_retry "exponential" (λ i, 100 * Millisecond * 2 ^ (i - 1)) None
      server (mkRestClientConfig 5 "fibonacci") (mkNet 0 []) =
      (retryResponse ok, net') ∧
    tried net' = 3%nat.
Proof.
  cbv zeta.
  apply (execMethod_retry_first_response "exponential"
           (λ i, 100 * Millisecond * 2 ^ (i - 1))
           (λ k : nat, match k with
                       | 0%nat => Err (osError "connection refused")
                       | 1%nat => Ok (mkResponse 503 [])
                       | _ => Ok (mkResponse 200 (b "{}"))
                       end)
           (mkRestClientConfig 5 "fibonacci") (mkNet 0 []) 2
           (mkResponse 200 (b "{}"))).
  - by vm_compute.
  - intros [|[|j]] Hj; [done|done|lia].
  - done.
  - by vm_compute.
Defined.

(** X19.  When every try but the last is an error or a 503 response, the
    loop makes exactly [Retries] requests and the last try decides: its
    error is returned, and its response, a 503 included, is handed on
    without an error. *)
Theorem execMethod_retry_exhausted
    (RestRetryStrategyExponential : string) (exponentialSleep : Z → Z)
    (client_Do : nat → result Response) (config : RestClientConfig)
    (net : Net) :
  1 <= Retries config →
  let n := Z.to_nat (Retries config) in
  (∀ j, (j + 1 < n)%nat → retried (client_Do (tried net + j)%nat)) →
  ∃ net',
    execMethod_retry RestRetryStrategyExponential exponentialSleep None
      client_Do config net =
      (match client_Do (tried net + (n - 1))%nat with
       | Err e => retryError e
       | Ok r => retryResponse r
       end, net') ∧
    tried net' = (tried net + n)%nat.
Proof.
  intros Hn n Hbefore. unfold execMethod_retry. fold n.
  destruct n as [|m] eqn:E; [lia|].
  replace (S m - 1)%nat with m by lia.
  destruct (retry_from_exhaust RestRetryStrategyExponential exponentialSleep
              client_Do config m 0 0 0 None None net) as (net' & Hrun & Ht).
  - lia.
  - intros j Hj. apply Hbefore. lia.
  - exists net'. split; [done|]. lia.
Qed.

Lemma execMethod_retry_exhausted_witness :
  let busy := mkResponse 503 (b "busy") in
  ∃ net',
    execMethod_retry "exponential" (λ i, 100 * Millisecond * 2 ^ (i - 1)) None
      (λ _, Ok busy) (mkRestClientConfig 3 "fibonacci") (mkNet 0 []) =
      (retryResponse busy, net') ∧
    tried net' = 3%nat.
Proof.
  cbv zeta.
  apply (execMethod_retry_exhausted "exponential"
           (λ i, 100 * Millisecond * 2 ^ (i - 1))
           (λ _, Ok (mkResponse 503 (b "busy")))
           (mkRestClientConfig 3 "fibonacci") (mkNet 0 [])).
  - by vm_compute.
  - intros j Hj. done.
Defined.

(** X20.  With a retry strategy other than the exponential one, and at most
    55 retries, the sleeps of the loop are 100 milliseconds times the
    Fibonacci numbers 1, 1, 2, 3, 5, ...: the sleep before the k-th retry
    is [100ms * fib k]. *)
Theorem execMethod_retry_fibonacci
    (RestRetryStrategyExponential : string) (exponentialSleep : Z → Z)
    (newRequest : option error) (client_Do : nat → result Response)
    (config : RestClientConfig) (net net' : Net) (out : retryEnd) :
  String.eqb (RetryStrategy config) RestRetryStrategyExponential = false →
  Retries config <= 55 →
  execMethod_retry RestRetryStrategyExponential exponentialSleep newRequest
    client_Do config net = (out, net') →
  naps net' =
    naps net ++
    ((λ k, 100 * Millisecond * fib k) <$> seq 1 (tried net' - tried net - 1)).
Proof.
  intros Hfib Hmax. unfold execMethod_retry.
  destruct (Z.to_nat (Retries config)) as [|turns] eqn:E.
  { intros Hrun. injection Hrun as _ <-.
    by rewrite Nat.sub_diag, app_nil_r. }
  destruct newRequest as [e|].
  { cbn [retry_from]. intros Hrun. injection Hrun as _ <-.
    by rewrite Nat.sub_diag, app_nil_r. }
  rewrite retry_from_turn, Z.ltb_irrefl. cbv beta iota zeta.
  change (0 + 1) with (Z.of_nat 1).
  assert (Hstep : ∀ resp1 err1,
    retry_from RestRetryStrategyExponential exponentialSleep None client_Do
      config turns (Z.of_nat 1) 0 0 resp1 err1
      (mkNet (S (tried net)) (naps net)) = (out, net') →
    naps net' =
      naps net ++
      ((λ k, 100 * Millisecond * fib k) <$> seq 1 (tried net' - tried net - 1))).
  { intros resp1 err1 Hrec.
    apply (retry_from_fib_naps _ _ _ _ Hfib) in Hrec; try done; try lia.
    cbn [tried naps] in Hrec.
    by replace (tried net' - tried net - 1)%nat
      with (tried net' - S (tried net))%nat by lia. }
  destruct (client_Do (tried net)) as [r|e].
  - destruct (negb _).
    + intros Hrun. injection Hrun as _ <-. cbn [tried naps].
      replace (S (tried net) - tried net - 1)%nat with 0%nat by lia.
      by rewrite app_nil_r.
    + apply Hstep.
  - destruct (0 =? Retries config - 1).
    + intros Hrun. injection Hrun as _ <-. cbn [tried naps].
      replace (S (tried net) - tried net - 1)%nat with 0%nat by lia.
      by rewrite app_nil_r.
    + apply Hstep.
Qed.

Lemma execMethod_retry_fibonacci_witness :
  let down := osError "connection refused" in
  ∃ out net',
    execMethod_retry "exponential" (λ i, 100 * Millisecond * 2 ^ (i - 1)) None
      (λ _, Err down) (mkRestClientConfig 6 "fibonacci") (mkNet 0 []) =
      (out, net') ∧
    naps net' = [100000000; 100000000; 200000000; 300000000; 500000000].
Proof.
  cbv zeta. eexists _, (mkNet 6 _). split; [by vm_compute|].
  etrans.
  - apply (execMethod_retry_fibonacci "exponential"
             (λ i, 100 * Millisecond * 2 ^ (i - 1)) None
             (λ _, Err (osError "connection refused"))
             (mkRestClientConfig 6 "fibonacci") (mkNet 0 []) (mkNet 6 _)
             (retryError (osError "connection refused"))).
    + by vm_compute.
    + by vm_compute.
    + by vm_compute.
  - by vm_compute.
Defined.
